(** * weather-station.js: a shallow embedding

    The module drives a BLE weather station through the [noble] adapter:
    address allow-lists, the advertisement validation done while scanning,
    the record aggregation of [getRecord], and the connect handshake with
    its command/notification correlation in [_write].

    JavaScript callbacks run to completion on one event loop, so every
    operation is modelled as a state machine stepped by the events that
    the adapter delivers; promises are modelled by their settled state. *)

From Stdlib Require Import ZArith Ascii String List Lia.
From Stdlib Require Import Strings.Byte.
From stdpp Require Import base gmap strings list fin_maps.

Local Open Scope string_scope.
Local Open Scope Z_scope.

(** ** JavaScript values used by the module *)
Module Js.

(** [new Error(message)] *)
Record Error := mkError { message : string }.

(** The state of a promise.  Settling is permanent: [resolve] and
    [reject] on a settled promise do nothing. *)
Inductive promise (A : Type) :=
| Pending
| Fulfilled (v : A)
| Rejected (e : Error).
Arguments Pending {A}.
Arguments Fulfilled {A} v.
Arguments Rejected {A} e.

Definition resolve {A} (v : A) (p : promise A) : promise A :=
  match p with Pending => Fulfilled v | _ => p end.

Definition reject {A} (e : Error) (p : promise A) : promise A :=
  match p with Pending => Rejected e | _ => p end.

(** The argument given to [then]: a function, or something that is not
    callable (a promise object, for one), which [then] ignores. *)
Inductive then_arg (A : Type) :=
| Callable (f : A -> A)
| NotCallable.
Arguments Callable {A} f.
Arguments NotCallable {A}.

(** [p.then(arg)] for a side-effect free [arg]: the derived promise. *)
Definition then_ {A} (p : promise A) (arg : then_arg A) : promise A :=
  match p, arg with
  | Fulfilled v, Callable f => Fulfilled (f v)
  | _, _ => p
  end.

(** Truthiness of a string: only the empty string is falsy. *)
Definition truthy (s : string) : bool :=
  match s with EmptyString => false | _ => true end.

(** [String.prototype.toLowerCase], on the ASCII range. *)
Definition lower_char (c : ascii) : ascii :=
  let n := N_of_ascii c in
  if ((65 <=? n) && (n <=? 90))%N then ascii_of_N (n + 32) else c.

Fixpoint toLowerCase (s : string) : string :=
  match s with
  | EmptyString => EmptyString
  | String c r => String (lower_char c) (toLowerCase r)
  end.

(** [s.replace(/:/g, '')] *)
Fixpoint replace_colons (s : string) : string :=
  match s with
  | EmptyString => EmptyString
  | String c r =>
      if Ascii.eqb c ":" then replace_colons r
      else String c (replace_colons r)
  end.

(** [Array.prototype.indexOf] on an array of strings, [-1] when absent. *)
Fixpoint indexOf (l : list string) (x : string) : Z :=
  match l with
  | [] => -1
  | y :: r =>
      if String.eqb y x then 0
      else let i := indexOf r x in if i =? -1 then -1 else i + 1
  end.

(** [indexOf] with an argument that may be [undefined]: an array of
    strings never holds [undefined]. *)
Definition indexOf_opt (l : list string) (x : option string) : Z :=
  match x with
  | Some s => indexOf l s
  | None => -1
  end.

End Js.
Export Js.

(** ** Address allow-lists *)
Module Addresses.

(** The [addresses] argument as the functions receive it: [null] (the
    default), the [false] that [getNormalizedAddresses] returns for an
    empty array, or an array of strings. *)
Inductive addresses :=
| JsNull
| JsFalse
| JsArray (l : list string).

(** Arrays are truthy, the empty one too. *)
Definition addresses_truthy (a : addresses) : bool :=
  match a with JsArray _ => true | _ => false end.

Definition normalize (address : string) : string :=
  replace_colons (toLowerCase address).

(** [addresses && addresses.length > 0 && addresses.map(...)] *)
Definition getNormalizedAddresses (a : addresses) : addresses :=
  match a with
  | JsNull => JsNull
  | JsFalse => JsFalse
  | JsArray l =>
      if (0 <? Z.of_nat (length l)) then JsArray (map normalize l)
      else JsFalse
  end.

(** [peripheral.address && peripheral.address.replace(/:/g, '')];
    [None] is [undefined]. *)
Definition stripped_address (a : option string) : option string :=
  match a with
  | None => None
  | Some s => if truthy s then Some (replace_colons s) else Some s
  end.

(** [addresses && addresses.indexOf(address) === -1]: the device is
    dropped by the allow-list. *)
Definition rejected_by (a : addresses) (address : option string) : bool :=
  match a with
  | JsArray l => indexOf_opt l address =? -1
  | _ => false
  end.

(** Two address strings that differ only in the case of their letters
    and in where [:] separators stand. *)
Inductive same_address : string -> string -> Prop :=
| same_nil : same_address "" ""
| same_sep_l s t : same_address s t -> same_address (String ":" s) t
| same_sep_r s t : same_address s t -> same_address s (String ":" t)
| same_char c d s t :
    lower_char c = lower_char d ->
    same_address s t -> same_address (String c s) (String d t).

End Addresses.
Export Addresses.

(** ** Buffers *)
Module Buffer.

Definition byte_val (b : Byte.byte) : Z := Z.of_N (Byte.to_N b).

(** A read past the end of the buffer raises a [RangeError]: [None]. *)
Definition readUInt8 (data : list byte) (offset : nat) : option Z :=
  byte_val <$> data !! offset.

(** Little-endian value of a run of bytes. *)
Fixpoint le_value (bs : list byte) : Z :=
  match bs with
  | [] => 0
  | b :: r => byte_val b + 256 * le_value r
  end.

Definition slice (data : list byte) (start : nat) : list byte :=
  drop start data.

Definition readUIntLE (data : list byte) (offset byteLength : nat) : option Z :=
  if (offset + byteLength <=? length data)%nat
  then Some (le_value (take byteLength (drop offset data)))
  else None.

Definition readUInt16LE (data : list byte) (offset : nat) : option Z :=
  readUIntLE data offset 2.

Definition hex_digit (d : Z) : ascii :=
  if d <? 10 then ascii_of_N (Z.to_N (48 + d))
  else ascii_of_N (Z.to_N (87 + d)).

Fixpoint hex_digits (fuel : nat) (n : Z) (acc : string) : string :=
  let acc' := String (hex_digit (n mod 16)) acc in
  match fuel with
  | O => acc'
  | S f => if n / 16 =? 0 then acc' else hex_digits f (n / 16) acc'
  end.

(** [n.toString(16)] for a non-negative integer: lowercase digits, no
    leading zeros, ["0"] for zero. *)
Definition toString16 (n : Z) : string :=
  hex_digits (Z.to_nat (Z.log2 n)) n "".

End Buffer.
Export Buffer.

(** ** Advertisements and the discover handlers *)
Module Advertisement.

Definition COMPANY_ID : Z := 0x4842.

(** What the code reads of a noble peripheral. *)
Record peripheral := mkPeripheral {
  peripheral_id : string;
  address : option string;
  localName : string;
  manufacturerData : list byte
}.

(** Modelled from the spec: the [Reading] class of [./reading] is not
    among the sources; a reading has a name and a value. *)
Record Reading := mkReading { name : string; value : Z }.

(** The station object built by [new WeatherStation(peripheral)]. *)
Record WeatherStation := mkStation {
  st_peripheral : peripheral;
  st_id : string;
  st_address : option string;
  st_localName : string
}.

Definition new_WeatherStation (p : peripheral) : WeatherStation :=
  mkStation p (peripheral_id p) (address p) (localName p).

(** How a handler ends: it returns a value, or it throws. *)
Inductive completion (A : Type) :=
| Normal (a : A)
| Throw (e : Error).
Arguments Normal {A} a.
Arguments Throw {A} e.

Definition RangeError : Error := mkError "Index out of range".

(** [_discoverHandler] of [scan]: the stations to push (and to hand to
    the caller's [discoverHandler]). *)
Definition scan_discoverHandler (addresses : addresses) (p : peripheral)
  : list WeatherStation :=
  let address := stripped_address (address p) in
  if rejected_by addresses address then []
  else [new_WeatherStation p].

(** [address && data.readUIntLE(2, 6).toString(16) !== address] *)
Definition self_address_differs (data : list byte) (address : option string)
  : completion bool :=
  match address with
  | None => Normal false
  | Some a =>
      if truthy a then
        match readUIntLE data 2 6 with
        | None => Throw RangeError
        | Some n => Normal (negb (String.eqb (toString16 n) a))
        end
      else Normal false
  end.

Section Decoder.
(** [Reading.parseReadings], of [./reading]: the reading decoder is a
    parameter of the pipeline. *)
Variable parseReadings : list byte -> list Reading.

(** [discoverHandler] of [scanForReadings]: the readings passed to
    [readingHandler], in call order. *)
Definition discoverHandler (readingHandler : bool) (addresses : addresses)
    (p : peripheral) : completion (list Reading) :=
  let data := manufacturerData p in
  if Z.of_nat (length data) <? 9 then Normal []
  else
    match readUInt16LE data 0 with
    | None => Throw RangeError
    | Some cid =>
        if negb (cid =? COMPANY_ID) then Normal []
        else
          let address := stripped_address (address p) in
          match self_address_differs data address with
          | Throw e => Throw e
          | Normal true => Normal []
          | Normal false =>
              if rejected_by addresses address then Normal []
              else if readingHandler
                   then Normal (parseReadings (slice data 8))
                   else Normal []
          end
    end.
End Decoder.

End Advertisement.
Export Advertisement.

(** ** The scan sessions of [scan] and [scanForReadings] *)
Module Scanner.

(** [scan] discovers connectable stations, [scanForReadings] reports
    every advertisement's readings. *)
Inductive mode := Connectable | Continuous.

(** Calls made on noble. *)
Inductive adapter_call :=
| StartScanning (allowDuplicates : bool)
| StopScanning.

(** What noble delivers to the module. *)
Inductive event :=
| StateChange (state : string)        (* 'stateChange' *)
| PowerTimeout                        (* the 5000 ms timer of [powerOn] *)
| ScanStarted (error : option Error)  (* the callback of [startScanning] *)
| Discover (p : peripheral)           (* 'discover' *)
| ScanStop.                           (* 'scanStop' *)

(** Where a session stands: waiting in [powerOn], waiting for the
    callback of [startScanning], scanning with its three listeners
    attached, or over (listeners removed, promise settled). *)
Inductive phase := PoweringOn | Starting | Scanning | Ended.

Inductive scan_value :=
| Stations (l : list WeatherStation)
| Void.

Record session := mkSession {
  s_mode : mode;
  s_addresses : addresses;
  s_readingHandler : bool;
  noble_state : string;
  s_phase : phase;
  stations : list WeatherStation;
  s_promise : promise scan_value;
  calls : list adapter_call
}.

Definition with_state (st : string) (s : session) : session :=
  mkSession (s_mode s) (s_addresses s) (s_readingHandler s) st
            (s_phase s) (stations s) (s_promise s) (calls s).
Definition with_phase (ph : phase) (s : session) : session :=
  mkSession (s_mode s) (s_addresses s) (s_readingHandler s) (noble_state s)
            ph (stations s) (s_promise s) (calls s).
Definition with_stations (l : list WeatherStation) (s : session) : session :=
  mkSession (s_mode s) (s_addresses s) (s_readingHandler s) (noble_state s)
            (s_phase s) l (s_promise s) (calls s).
Definition with_promise (p : promise scan_value) (s : session) : session :=
  mkSession (s_mode s) (s_addresses s) (s_readingHandler s) (noble_state s)
            (s_phase s) (stations s) p (calls s).
Definition call (c : adapter_call) (s : session) : session :=
  mkSession (s_mode s) (s_addresses s) (s_readingHandler s) (noble_state s)
            (s_phase s) (stations s) (s_promise s) (calls s ++ [c]).

Definition allowDuplicates (m : mode) : bool :=
  match m with Connectable => false | Continuous => true end.

Definition AdapterTimeoutError (state : string) : Error :=
  mkError ("Timeout while waiting for power on (state: " +:+ state +:+ ")").

Definition AdapterStateError (state : string) : Error :=
  mkError ("State changed to " +:+ state).

(** [noble.startScanning([SERVICE_UUID], allowDuplicates, callback)] *)
Definition startScanning (s : session) : session :=
  call (StartScanning (allowDuplicates (s_mode s))) (with_phase Starting s).

(** [powerOn().then(...)]: with the adapter powered on the scan is
    started at once, else the session waits for a state change. *)
Definition start (m : mode) (readingHandler : bool) (a : addresses)
    (state : string) : session :=
  let s := mkSession m a readingHandler state PoweringOn [] Pending [] in
  if String.eqb state "poweredOn" then startScanning s else s.

Definition scan (a : addresses) (state : string) : session :=
  start Connectable false a state.

Definition scanForReadings (readingHandler : bool) (a : addresses)
    (state : string) : session :=
  start Continuous readingHandler a state.

(** [WeatherStation.stopScan()] *)
Definition stopScan (s : session) : session := call StopScanning s.

(** [scanStopHandler]: listeners removed, promise resolved. *)
Definition scanStopHandler (s : session) : session :=
  let v := match s_mode s with
           | Connectable => Stations (stations s)
           | Continuous => Void
           end in
  with_promise (resolve v (s_promise s)) (with_phase Ended s).

(** [stateChangeHandler] of a running scan. *)
Definition stateChangeHandler (state : string) (s : session) : session :=
  if negb (String.eqb state "poweredOn") then
    with_promise (reject (AdapterStateError state) (s_promise s))
      (call StopScanning (with_phase Ended s))
  else s.

(** [stateChangeHandler] and timer of [powerOn]. *)
Definition powerOn_stateChangeHandler (state : string) (s : session) : session :=
  if String.eqb state "poweredOn" then startScanning s else s.

Definition powerOn_timeout (s : session) : session :=
  with_promise (reject (AdapterTimeoutError (noble_state s)) (s_promise s))
    (with_phase Ended s).

Section Decoder.
Variable parseReadings : list byte -> list Reading.

(** One event delivered to a session: the new session and the
    readings passed to [readingHandler].  An event for which no
    listener is attached changes nothing; a handler that throws leaves
    the session as it was. *)
Definition step (s : session) (ev : event) : session * list Reading :=
  match ev, s_phase s with
  | StateChange st, PoweringOn =>
      (powerOn_stateChangeHandler st (with_state st s), [])
  | StateChange st, Scanning =>
      (stateChangeHandler st (with_state st s), [])
  | StateChange st, _ => (with_state st s, [])
  | PowerTimeout, PoweringOn => (powerOn_timeout s, [])
  | ScanStarted (Some e), Starting =>
      (with_promise (reject e (s_promise s)) (with_phase Ended s), [])
  | ScanStarted None, Starting => (with_phase Scanning s, [])
  | Discover p, Scanning =>
      match s_mode s with
      | Connectable =>
          (with_stations
             (stations s ++ scan_discoverHandler (s_addresses s) p) s, [])
      | Continuous =>
          match discoverHandler parseReadings (s_readingHandler s)
                  (s_addresses s) p with
          | Normal rs => (s, rs)
          | Throw _ => (s, [])
          end
      end
  | ScanStop, Scanning => (scanStopHandler s, [])
  | _, _ => (s, [])
  end.

Definition run (s : session) (evs : list event) : session :=
  fold_left (fun s ev => fst (step s ev)) evs s.
End Decoder.

(** Modelled from the spec: the RadioAdapter (noble) is an external
    capability; a stop request ends scanning and is reported by a
    'scanStop' event, while the outcome of a start request is the
    adapter's to decide. *)
Definition adapter_reply (c : adapter_call) : list event :=
  match c with
  | StopScanning => [ScanStop]
  | StartScanning _ => []
  end.

(** The events that the adapter owes for the calls made since [old]. *)
Definition replies (old new : list adapter_call) : list event :=
  flat_map adapter_reply (drop (length old) new).

(** A session is over exactly when its promise is settled. *)
Definition consistent (s : session) : Prop :=
  Scanner.s_phase s = Ended <-> s_promise s <> Pending.

End Scanner.
Export Scanner.

(** ** [getRecord] *)
Module Aggregator.

(** Modelled from the spec: the [Record] class of [./record] is not
    among the sources; a ReadingSet maps a reading name to the reading
    seen last under that name, and its size is the number of names. *)
Definition record_add (r : Reading) (rec : gmap string Reading)
  : gmap string Reading := <[name r := r]> rec.

Definition record_size (rec : gmap string Reading) : Z := Z.of_nat (size rec).

Inductive event :=
| Deadline                       (* the [readTimeout] timer fires *)
| Adapter (ev : Scanner.event).

Record aggregation := mkAggregation {
  includedReadings : list string;
  scanning : session;
  record : gmap string Reading;
  timeout : bool;                (* the timer is armed *)
  g_promise : promise (gmap string Reading)
}.

Definition clearTimeout (g : aggregation) : aggregation :=
  mkAggregation (includedReadings g) (scanning g) (record g) false (g_promise g).

Definition g_stopScan (g : aggregation) : aggregation :=
  mkAggregation (includedReadings g) (stopScan (scanning g)) (record g)
                (timeout g) (g_promise g).

Definition with_record (rec : gmap string Reading) (g : aggregation) : aggregation :=
  mkAggregation (includedReadings g) (scanning g) rec (timeout g) (g_promise g).

Definition with_scanning (s : session) (g : aggregation) : aggregation :=
  mkAggregation (includedReadings g) s (record g) (timeout g) (g_promise g).

Definition with_g_promise (p : promise (gmap string Reading)) (g : aggregation)
  : aggregation :=
  mkAggregation (includedReadings g) (scanning g) (record g) (timeout g) p.

Definition getRecord (includedReadings : list string) (a : addresses)
    (state : string) : aggregation :=
  mkAggregation includedReadings
    (scanForReadings true (getNormalizedAddresses a) state) ∅ true Pending.

Definition readingHandler (g : aggregation) (reading : Reading) : aggregation :=
  if negb (indexOf (includedReadings g) (name reading) =? -1) then
    let g := with_record (record_add reading (record g)) g in
    if record_size (record g) >=? Z.of_nat (length (includedReadings g))
    then g_stopScan (clearTimeout g)
    else g
  else g.

(** The [then] and [catch] attached to the scan's promise. *)
Definition settle (g : aggregation) : aggregation :=
  match s_promise (scanning g) with
  | Pending => g
  | Fulfilled _ => with_g_promise (resolve (record g) (g_promise g)) (clearTimeout g)
  | Rejected e => with_g_promise (reject e (g_promise g)) (clearTimeout g)
  end.

(** The timer's callback; a cleared timer never fires. *)
Definition on_timeout (g : aggregation) : aggregation :=
  if timeout g then g_stopScan (clearTimeout g) else g.

Section Decoder.
Variable parseReadings : list byte -> list Reading.

Definition step (g : aggregation) (ev : event) : aggregation :=
  match ev with
  | Deadline => on_timeout g
  | Adapter ev =>
      let '(s, readings) := Scanner.step parseReadings (scanning g) ev in
      settle (fold_left readingHandler readings (with_scanning s g))
  end.

(** The aggregation together with the events that the adapter has
    still to deliver for the calls made on it. *)
Record world := mkWorld { agg : aggregation; inflight : list Scanner.event }.

Definition deliver (w : world) (ev : event) : world :=
  let g := step (agg w) ev in
  mkWorld g (inflight w ++
             replies (calls (scanning (agg w))) (calls (scanning g))).

Definition run (w : world) (evs : list event) : world :=
  fold_left deliver evs w.

(** The adapter delivers what is in flight. *)
Definition drain (w : world) : world :=
  run (mkWorld (agg w) []) (map Adapter (inflight w)).
End Decoder.

Definition accepted (included : list string) (r : Reading) : bool :=
  negb (indexOf included (name r) =? -1).

(** The names held by the record are requested names. *)
Definition only_requested (g : aggregation) : Prop :=
  forall n, is_Some (record g !! n) -> n ∈ includedReadings g.

(** [getRecord]'s promise follows the scan's. *)
Definition follows (g : aggregation) : Prop :=
  g_promise g = match s_promise (scanning g) with
                | Pending => Pending
                | Fulfilled _ => Fulfilled (record g)
                | Rejected e => Rejected e
                end.

Definition invariant (g : aggregation) : Prop :=
  consistent (scanning g) /\
  s_mode (scanning g) = Continuous /\
  follows g /\
  only_requested g.

(** What a run of [readingHandler] calls leaves as it was. *)
Definition same_scan (g g' : aggregation) : Prop :=
  includedReadings g' = includedReadings g /\
  g_promise g' = g_promise g /\
  Scanner.s_phase (scanning g') = Scanner.s_phase (scanning g) /\
  s_promise (scanning g') = s_promise (scanning g) /\
  s_mode (scanning g') = s_mode (scanning g) /\
  exists extra, calls (scanning g') = (calls (scanning g) ++ extra)%list /\
                Forall (eq StopScanning) extra /\
                (timeout g = false \/ extra <> [] -> timeout g' = false) /\
                (timeout g' = timeout g \/ extra <> []).

(** The record after a batch of readings: the accepted ones inserted,
    in order. *)
Definition insert_accepted (included : list string) (rs : list Reading)
    (rec : gmap string Reading) : gmap string Reading :=
  fold_left (fun rec r => if accepted included r then record_add r rec else rec)
            rs rec.

End Aggregator.

(** ** A station: [connect], [_initialize] and [_write] *)
Module Station.

(** The four characteristics of the service, by role
    (fff1, fff2, fff3, fff4). *)
Inductive characteristic :=
| SettingsWrite
| SettingsNotify
| DataWrite
| DataNotify.

Definition characteristic_eqb (a b : characteristic) : bool :=
  match a, b with
  | SettingsWrite, SettingsWrite | SettingsNotify, SettingsNotify
  | DataWrite, DataWrite | DataNotify, DataNotify => true
  | _, _ => false
  end.

(** One call of [_write]: its arguments, whether its [dataHandler] is
    attached to the notify characteristic, and its promise. *)
Record command := mkCommand {
  c_write : characteristic;
  c_notify : characteristic;
  c_data : list byte;
  c_responseCommand : Z;
  c_listening : bool;
  c_promise : promise (list byte)
}.

Definition new_command (wc nc : characteristic) (data : list byte)
    (responseCommand : Z) : command :=
  mkCommand wc nc data responseCommand true Pending.

Definition removeListener (c : command) : command :=
  mkCommand (c_write c) (c_notify c) (c_data c) (c_responseCommand c)
            false (c_promise c).

Definition with_c_promise (p : promise (list byte)) (c : command) : command :=
  mkCommand (c_write c) (c_notify c) (c_data c) (c_responseCommand c)
            (c_listening c) p.

(** [dataHandler] of [_write] *)
Definition dataHandler (c : command) (receivedData : list byte)
    (isNotification : bool) : completion command :=
  if isNotification then
    match readUInt8 receivedData 0 with
    | None => Throw RangeError
    | Some b =>
        if b =? c_responseCommand c
        then Normal (with_c_promise (resolve receivedData (c_promise c))
                       (removeListener c))
        else Normal c
    end
  else Normal c.

(** A 'data' event of characteristic [nc] as one command sees it: its
    handler runs when it is attached to [nc]; a handler that throws
    leaves the command as it was (it throws on an empty notification,
    before it changes anything, and so does every other handler). *)
Definition on_data (c : command) (nc : characteristic)
    (receivedData : list byte) (isNotification : bool) : command :=
  if c_listening c && characteristic_eqb (c_notify c) nc then
    match dataHandler c receivedData isNotification with
    | Normal c' => c'
    | Throw _ => c
    end
  else c.

(** The callback given to [writeCharacteristic.write]. *)
Definition write_callback (c : command) (error : option Error) : command :=
  match error with
  | Some e => with_c_promise (reject e (c_promise c)) (removeListener c)
  | None => c
  end.

(** Notifications delivered one after the other to a command. *)
Definition deliver_all (c : command) (ns : list (list byte * bool)) : command :=
  fold_left (fun c n => on_data c (c_notify c) (fst n) (snd n)) ns c.

(** Whether a notification answers the command. *)
Definition matches (responseCommand : Z) (n : list byte * bool) : bool :=
  snd n && match readUInt8 (fst n) 0 with
           | Some b => b =? responseCommand
           | None => false
           end.

(** What the station does, in order. *)
Inductive action :=
| Emit (name : string)
| PeripheralConnect
| DiscoverCharacteristics
| Subscribe (c : characteristic)
| Write (c : characteristic) (data : list byte)
| Received (c : characteristic) (data : list byte) (isNotification : bool).

(** What the peripheral and its characteristics deliver. *)
Inductive event :=
| ConnectCb (error : option Error)
| DiscoverCb (error : option Error)
| SubscribeCb (error : option Error)
| Disconnect
| WriteCb (i : nat) (error : option Error)  (* for the i-th write issued *)
| Data (c : characteristic) (data : list byte) (isNotification : bool).

(** The callback that [connect] waits for. *)
Inductive phase :=
| Connecting
| Discovering
| SubscribingSettings
| SubscribingData
| Initializing
| Ready
| Aborted.

Record station := mkStationState {
  s_phase : phase;
  disconnect_listener : bool;      (* [once('disconnect', ...)] attached *)
  commands : list command;         (* the calls of [_write], oldest first *)
  first_init : nat;                (* index of the first command of [_initialize] *)
  stage : promise unit;            (* promise of the step in progress *)
  connected : promise unit;        (* promise returned by [connect] *)
  log : list action
}.

Definition set_phase (p : phase) (s : station) : station :=
  mkStationState p (disconnect_listener s) (commands s) (first_init s)
                 (stage s) (connected s) (log s).
Definition set_listener (b : bool) (s : station) : station :=
  mkStationState (s_phase s) b (commands s) (first_init s)
                 (stage s) (connected s) (log s).
Definition set_commands (l : list command) (s : station) : station :=
  mkStationState (s_phase s) (disconnect_listener s) l (first_init s)
                 (stage s) (connected s) (log s).
Definition set_first_init (n : nat) (s : station) : station :=
  mkStationState (s_phase s) (disconnect_listener s) (commands s) n
                 (stage s) (connected s) (log s).
Definition set_stage (p : promise unit) (s : station) : station :=
  mkStationState (s_phase s) (disconnect_listener s) (commands s) (first_init s)
                 p (connected s) (log s).
Definition set_connected (p : promise unit) (s : station) : station :=
  mkStationState (s_phase s) (disconnect_listener s) (commands s) (first_init s)
                 (stage s) p (log s).
Definition does (a : action) (s : station) : station :=
  mkStationState (s_phase s) (disconnect_listener s) (commands s) (first_init s)
                 (stage s) (connected s) (log s ++ [a]).

Definition DisconnectedError : Error :=
  mkError "Peripheral disconnected unexpectedly".

(** [_write]: the listener is attached, then the write is issued. *)
Definition _write (wc nc : characteristic) (data : list byte)
    (responseCommand : Z) (s : station) : station :=
  does (Write wc data)
    (set_commands (commands s ++ [new_command wc nc data responseCommand]) s).

Definition writeSetting (data : list byte) (responseCommand : Z) :=
  _write SettingsWrite SettingsNotify data responseCommand.

Definition write (data : list byte) (responseCommand : Z) :=
  _write DataWrite DataNotify data responseCommand.

Definition init1 : list byte := [x06; x06; x30; x30; x30; x30; x30; x30]%byte.
Definition init2 : list byte := [x05; x06; x30; x30; x30; x30; x30; x30]%byte.
Definition init3 : list byte := [xaa; x02; x33; xff]%byte.

(** A step of [connect] starts: its promise is pending and its
    [disconnectHandler] is attached. *)
Definition begin_stage (p : phase) (s : station) : station :=
  set_listener true (set_stage Pending (set_phase p s)).

Definition _getCharacteristics (s : station) : station :=
  does DiscoverCharacteristics (begin_stage Discovering s).

Definition _setupListeners (s : station) : station :=
  does (Subscribe SettingsNotify) (begin_stage SubscribingSettings s).

(** [_initialize]: the three [writeSetting] calls are evaluated while
    the chain is built, the last two as arguments of [then]. *)
Definition _initialize (s : station) : station :=
  let s := set_first_init (length (commands s)) (begin_stage Initializing s) in
  let s := writeSetting init1 0x80 s in
  let s := writeSetting init2 0x80 s in
  let s := writeSetting init3 0x80 s in
  s.

(** [writeSetting(..).then(writeSetting(..)).then(writeSetting(..))]:
    both [then] are given a promise, which is not callable. *)
Definition initialize_chain (s : station) : promise (list byte) :=
  match commands s !! first_init s with
  | Some w1 => then_ (then_ (c_promise w1) NotCallable) NotCallable
  | None => Pending
  end.

(** The rest of [connect]'s chain after a step's promise: a rejection
    rejects [connect]. *)
Definition follow (s : station) : station :=
  match stage s with
  | Rejected e => set_connected (reject e (connected s)) s
  | _ => s
  end.

(** The last [then] and the [catch] of [_initialize], and the
    [emit('connected')] that follows its promise. *)
Definition initialize_settle (s : station) : station :=
  match s_phase s, initialize_chain s with
  | Initializing, Fulfilled _ =>
      let s := set_stage (resolve tt (stage s)) (set_listener false s) in
      match stage s with
      | Fulfilled _ =>
          set_connected (resolve tt (connected s))
            (does (Emit "connected") (set_phase Ready s))
      | _ => set_phase Aborted s
      end
  | Initializing, Rejected e =>
      follow (set_phase Aborted
                (set_stage (reject e (stage s)) (set_listener false s)))
  | _, _ => s
  end.

Definition connect (peripheral_connected : bool) : station :=
  let s := mkStationState Connecting false [] 0 Pending Pending
                          [Emit "connecting"] in
  if peripheral_connected then _getCharacteristics s
  else does PeripheralConnect s.

Definition on_disconnect (s : station) : station :=
  if disconnect_listener s then
    follow (set_stage (reject DisconnectedError (stage s)) (set_listener false s))
  else s.

(** The callback of a step of [connect] other than the last: the
    listener is removed, and the next step starts when the step's
    promise is fulfilled. *)
Definition finish_stage (error : option Error) (next : station -> station)
    (s : station) : station :=
  let s := set_listener false s in
  match error with
  | Some e => follow (set_phase Aborted (set_stage (reject e (stage s)) s))
  | None =>
      let s := set_stage (resolve tt (stage s)) s in
      match stage s with
      | Fulfilled _ => next s
      | _ => set_phase Aborted s
      end
  end.

Definition step (s : station) (ev : event) : station :=
  match ev with
  | Disconnect => on_disconnect s
  | ConnectCb error =>
      match s_phase s, error with
      | Connecting, Some e =>
          set_connected (reject e (connected s)) (set_phase Aborted s)
      | Connecting, None => _getCharacteristics s
      | _, _ => s
      end
  | DiscoverCb error =>
      match s_phase s with
      | Discovering => finish_stage error _setupListeners s
      | _ => s
      end
  | SubscribeCb error =>
      match s_phase s, error with
      | SubscribingSettings, None =>
          does (Subscribe DataNotify) (set_phase SubscribingData s)
      | SubscribingSettings, Some _ => finish_stage error id s
      | SubscribingData, _ => finish_stage error _initialize s
      | _, _ => s
      end
  | WriteCb i error =>
      match commands s !! i with
      | Some c =>
          initialize_settle
            (set_commands (<[i := write_callback c error]> (commands s))
               (does (Emit "write") s))
      | None => s
      end
  | Data nc data isNotification =>
      initialize_settle
        (set_commands
           (map (fun c => on_data c nc data isNotification) (commands s))
           (does (Received nc data isNotification) s))
  end.

Definition run (s : station) (evs : list event) : station :=
  fold_left step evs s.

Definition is_write (a : action) : bool :=
  match a with Write _ _ => true | _ => false end.

(** The writes issued so far. *)
Definition writes (s : station) : list action :=
  List.filter is_write (log s).

(** In the log [l], whenever the action [w] is done a settings
    notification carrying the response code [0x80] has been received
    before it. *)
Definition answered_before (l : list action) (w : action) : Prop :=
  forall pre post, l = (pre ++ w :: post)%list ->
    exists d, Received SettingsNotify d true ∈ pre /\ readUInt8 d 0 = Some 0x80.

(** While a step of [connect] that listens for a disconnect is in
    progress and [connect] is undecided, the listener is attached and
    the step's promise is pending. *)
Definition guarded (s : station) : Prop :=
  connected s = Pending ->
  match s_phase s with
  | Discovering | SubscribingSettings | SubscribingData | Initializing =>
      disconnect_listener s = true /\ stage s = Pending
  | _ => True
  end.

(** The handshake is at its last step or over. *)
Definition past_subscribe (s : station) : Prop :=
  match s_phase s with
  | Initializing | Ready | Aborted => True
  | _ => False
  end.

End Station.

(** ** Devices and decoders used in the examples *)
Module Samples.

(** A device that noble reports as aa:bb:cc:dd:ee:ff, advertising the
    family's manufacturer data. *)
Definition a_station : peripheral :=
  mkPeripheral "id0" (Some "aa:bb:cc:dd:ee:ff") "TP"
    [x42; x48; xff; xee; xdd; xcc; xbb; xaa; x01]%byte.

(** An advertisement of the family from a device whose address noble
    does not report. *)
Definition anonymous : peripheral :=
  mkPeripheral "id1" (Some "") "TP"
    [x42; x48; x01; x00; x00; x00; x00; x00; x07]%byte.

Definition raw_readings (bs : list byte) : list Reading :=
  map (fun b => mkReading "raw" (byte_val b)) bs.

(** A decoder for the examples: one reading per byte, named by it. *)
Definition tagged_readings (bs : list byte) : list Reading :=
  map (fun b => mkReading (if byte_val b =? 1 then "temperature"
                           else if byte_val b =? 2 then "humidity"
                           else "raw") (byte_val b)) bs.

(** A device whose payload embeds another address than its own. *)
Definition impostor : peripheral :=
  mkPeripheral "id2" (Some "AA:BB:CC:DD:EE:FF") "TP"
    [x42; x48; x01; x00; x00; x00; x00; x00; x07]%byte.

Definition too_short : peripheral :=
  mkPeripheral "id3" (Some "aa:bb:cc:dd:ee:ff") "TP"
    [x42; x48; xff; xee; xdd; xcc; xbb; xaa]%byte.

(** A station advertising a temperature and a humidity reading. *)
Definition two_readings : peripheral :=
  mkPeripheral "id0" (Some "aa:bb:cc:dd:ee:ff") "TP"
    [x42; x48; xff; xee; xdd; xcc; xbb; xaa; x01; x02]%byte.

End Samples.
Export Samples.

(** ** Vocabulary of the further properties *)
Module Vocabulary.

(** An upper-case ASCII letter. *)
Definition is_upper (c : ascii) : bool :=
  let n := N_of_ascii c in ((65 <=? n) && (n <=? 90))%N.

(** A string with no [:] and no upper-case letter. *)
Fixpoint canonical (s : string) : bool :=
  match s with
  | EmptyString => true
  | String c r => negb (Ascii.eqb c ":") && negb (is_upper c) && canonical r
  end.

(** The value of a lower-case hexadecimal digit. *)
Definition digit_value (c : ascii) : Z :=
  let n := Z.of_N (N_of_ascii c) in
  if (48 <=? n) && (n <=? 57) then n - 48
  else if (97 <=? n) && (n <=? 102) then n - 87
  else 0.

(** The number that a string of hexadecimal digits denotes. *)
Fixpoint hex_value_from (acc : Z) (s : string) : Z :=
  match s with
  | EmptyString => acc
  | String c r => hex_value_from (16 * acc + digit_value c) r
  end.

Definition hex_value (s : string) : Z := hex_value_from 0 s.

(** What a session has asked of noble, by phase. *)
Definition calls_by_phase (s : session) : Prop :=
  let started := StartScanning (allowDuplicates (s_mode s)) in
  match Scanner.s_phase s with
  | PoweringOn => calls s = []
  | Starting | Scanning => calls s = [started]
  | Ended => calls s = [] \/ calls s = [started] \/
             calls s = [started; StopScanning]
  end.

(** The last reading named [n] in a batch that [getRecord] accepts. *)
Definition last_seen (included : list string) (n : string) (rs : list Reading)
  : option Reading :=
  List.find (fun r => Aggregator.accepted included r && String.eqb (name r) n)
            (rev rs).

(** Every reading of the record is stored under its own name. *)
Definition keyed_by_name (rec : gmap string Reading) : Prop :=
  forall n r, rec !! n = Some r -> name r = n.

(** The deadline timer of a settled scan is cleared. *)
Definition timer_cleared (g : Aggregator.aggregation) : Prop :=
  s_promise (Aggregator.scanning g) <> Pending -> Aggregator.timeout g = false.

End Vocabulary.
Export Vocabulary.

(** ** Vocabulary of the further properties of a station *)
Module StationVocabulary.
Import Station.

(** The requests that a station makes of the peripheral. *)
Definition is_request (a : action) : bool :=
  match a with
  | PeripheralConnect | DiscoverCharacteristics | Subscribe _ | Write _ _ => true
  | _ => false
  end.

Definition requests (s : station) : list action :=
  List.filter is_request (log s).




(** How the phase, the disconnect listener, the promise of the step in
    progress and the promise of [connect] go together. *)
Definition coherent (s : station) : Prop :=
  match s_phase s with
  | Connecting => disconnect_listener s = false /\ connected s = Pending
  | Discovering | SubscribingSettings | SubscribingData | Initializing =>
      (disconnect_listener s = true /\ stage s = Pending /\
       connected s = Pending) \/
      (disconnect_listener s = false /\
       exists e, stage s = Rejected e /\ connected s = Rejected e)
  | Ready => disconnect_listener s = false /\ connected s = Fulfilled tt
  | Aborted => disconnect_listener s = false /\ exists e, connected s = Rejected e
  end.


(** Whether an event settles the pending command [c], the [i]-th
    issued: a notification of its notify characteristic that answers it,
    or an error in the callback of its own write. *)
Definition settles (c : command) (i : nat) (ev : event) : bool :=
  match ev with
  | Data nc d n =>
      characteristic_eqb (c_notify c) nc && matches (c_responseCommand c) (d, n)
  | WriteCb j (Some _) => Nat.eqb j i
  | _ => false
  end.

(** The command as such an event leaves it. *)
Definition settled_by (c : command) (ev : event) : command :=
  match ev with
  | Data _ d _ => with_c_promise (Fulfilled d) (removeListener c)
  | WriteCb _ (Some e) => with_c_promise (Rejected e) (removeListener c)
  | _ => c
  end.

End StationVocabulary.
Export StationVocabulary.

(** * Properties *)

(** ** Address normalization *)
Module AddressFacts.

Lemma lower_char_idem c : lower_char (lower_char c) = lower_char c.
Proof. destruct c as [[] [] [] [] [] [] [] []]; reflexivity. Qed.

Lemma lower_char_colon c :
  Ascii.eqb (lower_char c) ":" = Ascii.eqb c ":".
Proof. destruct c as [[] [] [] [] [] [] [] []]; reflexivity. Qed.

Lemma toLowerCase_idem s : toLowerCase (toLowerCase s) = toLowerCase s.
Proof.
  induction s as [|c s IH]; simpl; [reflexivity|].
  by rewrite lower_char_idem, IH.
Qed.

Lemma replace_colons_idem s : replace_colons (replace_colons s) = replace_colons s.
Proof.
  induction s as [|c s IH]; simpl; [reflexivity|].
  destruct (Ascii.eqb c ":") eqn:E; simpl; [exact IH|].
  by rewrite E, IH.
Qed.

Lemma lower_replace_comm s :
  toLowerCase (replace_colons s) = replace_colons (toLowerCase s).
Proof.
  induction s as [|c s IH]; simpl; [reflexivity|].
  rewrite lower_char_colon.
  destruct (Ascii.eqb c ":"); simpl; by rewrite IH.
Qed.

Lemma normalize_idempotent s : normalize (normalize s) = normalize s.
Proof.
  unfold normalize.
  by rewrite lower_replace_comm, toLowerCase_idem, replace_colons_idem.
Qed.

Lemma normalize_cons c s :
  normalize (String c s) =
  if Ascii.eqb c ":" then normalize s else String (lower_char c) (normalize s).
Proof. unfold normalize; simpl. by rewrite lower_char_colon. Qed.

Lemma same_address_normalize a b :
  same_address a b -> normalize a = normalize b.
Proof.
  induction 1 as [|s t _ IH|s t _ IH|c d s t Hcd _ IH].
  - reflexivity.
  - by rewrite normalize_cons.
  - by rewrite normalize_cons.
  - rewrite !normalize_cons, <- (lower_char_colon c), <- (lower_char_colon d).
    by rewrite Hcd, IH.
Qed.

Lemma same_address_refl s : same_address s s.
Proof. induction s; constructor; auto. Qed.

(** Every string is the same address as its normal form. *)
Lemma same_address_normal s : same_address s (normalize s).
Proof.
  induction s as [|c s IH]; [constructor|].
  rewrite normalize_cons.
  destruct (Ascii.eqb c ":") eqn:E.
  - apply Ascii.eqb_eq in E as ->. by constructor.
  - constructor; [by rewrite lower_char_idem | exact IH].
Qed.

Lemma normalize_map_same l1 l2 :
  Forall2 same_address l1 l2 -> map normalize l1 = map normalize l2.
Proof.
  induction 1 as [|a b l1 l2 Hab _ IH]; simpl; [reflexivity|].
  by rewrite (same_address_normalize _ _ Hab), IH.
Qed.

(** C7, as stated, fails: [scan] and [scanForReadings] compare the
    caller's allow-list as it is given.  The lists
    ["AA:BB:CC:DD:EE:FF"] and ["aabbccddeeff"] differ only in case and
    separators, yet the first one drops the device aa:bb:cc:dd:ee:ff
    and the second one keeps it, in both scans.  Besides, the only
    separator that normalization removes is the colon. *)
Lemma allow_list_taken_verbatim_by_scans :
  normalize "AA-BB" = "aa-bb" /\
  same_address "AA:BB:CC:DD:EE:FF" "aabbccddeeff" /\
  scan_discoverHandler (JsArray ["AA:BB:CC:DD:EE:FF"]) a_station = [] /\
  scan_discoverHandler (JsArray ["aabbccddeeff"]) a_station
    = [new_WeatherStation a_station] /\
  discoverHandler raw_readings true (JsArray ["AA:BB:CC:DD:EE:FF"]) a_station
    = Normal [] /\
  discoverHandler raw_readings true (JsArray ["aabbccddeeff"]) a_station
    = Normal [mkReading "raw" 1].
Proof.
  split; [reflexivity|].
  split; [|vm_compute; repeat split].
  repeat first [ apply same_nil | apply same_sep_l
               | apply same_char; [reflexivity|] ].
Qed.

(** C7, amended: normalization (lower case, every [:] removed) is
    idempotent; two address strings that differ only in letter case and
    in [:] separators have the same normal form; and [getRecord], which
    normalizes its allow-list, runs the same aggregation for two
    allow-lists whose entries differ only in that way. *)
Theorem normalization_collapses (a b : string) (l1 l2 : list string)
    (included : list string) (state : string) :
  same_address a b ->
  Forall2 same_address l1 l2 ->
  normalize (normalize a) = normalize a /\
  normalize a = normalize b /\
  getNormalizedAddresses (JsArray l1) = getNormalizedAddresses (JsArray l2) /\
  Aggregator.getRecord included (JsArray l1) state
    = Aggregator.getRecord included (JsArray l2) state.
Proof.
  intros Hab Hl.
  assert (Hn : getNormalizedAddresses (JsArray l1)
               = getNormalizedAddresses (JsArray l2)).
  { simpl. rewrite (Forall2_length _ _ _ Hl), (normalize_map_same _ _ Hl).
    reflexivity. }
  split; [apply normalize_idempotent|].
  split; [by apply same_address_normalize|].
  split; [exact Hn|].
  unfold Aggregator.getRecord. by rewrite Hn.
Qed.

Lemma normalization_collapses_witness :
  normalize "AA:BB:CC:DD:EE:FF" = normalize "aabbccddeeff" /\
  Aggregator.getRecord ["temperature"] (JsArray ["AA:BB:CC:DD:EE:FF"]) "poweredOn"
    = Aggregator.getRecord ["temperature"] (JsArray ["aabbccddeeff"]) "poweredOn".
Proof.
  assert (H : same_address "AA:BB:CC:DD:EE:FF" "aabbccddeeff").
  { repeat first [ apply same_nil | apply same_sep_l
                 | apply same_char; [reflexivity|] ]. }
  assert (Hl : Forall2 same_address ["AA:BB:CC:DD:EE:FF"] ["aabbccddeeff"]).
  { constructor; [exact H | constructor]. }
  pose proof (normalization_collapses _ _ _ _ ["temperature"] "poweredOn" H Hl)
    as (_ & Hn & _ & Hg).
  split; [exact Hn | exact Hg].
Defined.

(** C10: [getRecord] called with an empty array scans with the [false]
    that [getNormalizedAddresses] returns for it; that value is falsy,
    so no device is dropped by the allow-list and the handler does what
    it does with no allow-list at all, whereas the empty array itself
    would drop every device. *)
Theorem empty_allow_list_disables_filter (included : list string)
    (state : string) :
  getNormalizedAddresses (JsArray []) = JsFalse /\
  s_addresses (Aggregator.scanning (Aggregator.getRecord included (JsArray []) state))
    = JsFalse /\
  addresses_truthy JsFalse = false /\
  (forall address, rejected_by JsFalse address = false) /\
  (forall parseReadings p,
      discoverHandler parseReadings true JsFalse p
      = discoverHandler parseReadings true JsNull p) /\
  (forall address, rejected_by (JsArray []) address = true).
Proof.
  split; [reflexivity|].
  split.
  { unfold Aggregator.getRecord, scanForReadings, start. simpl.
    by destruct (String.eqb state "poweredOn"). }
  split; [reflexivity|].
  split; [reflexivity|].
  split; [|by intros [a|]].
  intros parseReadings p. unfold discoverHandler, rejected_by. reflexivity.
Qed.

End AddressFacts.

(** ** The advertisement checks of [scanForReadings] *)
Module DecoderFacts.

Lemma readUIntLE_in_range data offset n :
  (offset + n <= length data)%nat ->
  readUIntLE data offset n = Some (le_value (take n (drop offset data))).
Proof.
  intros H. unfold readUIntLE.
  destruct (Nat.leb_spec (offset + n) (length data)); [reflexivity|lia].
Qed.

Lemma hex_digit_lower d : 0 <= d < 16 -> lower_char (hex_digit d) = hex_digit d.
Proof.
  intros H.
  assert (Hd : d = 0 \/ d = 1 \/ d = 2 \/ d = 3 \/ d = 4 \/ d = 5 \/ d = 6 \/
               d = 7 \/ d = 8 \/ d = 9 \/ d = 10 \/ d = 11 \/ d = 12 \/
               d = 13 \/ d = 14 \/ d = 15) by lia.
  repeat (destruct Hd as [->|Hd]; [reflexivity|]). by subst.
Qed.

Lemma hex_digits_lower fuel : forall n acc,
  toLowerCase acc = acc ->
  toLowerCase (hex_digits fuel n acc) = hex_digits fuel n acc.
Proof.
  induction fuel as [|f IH]; intros n acc Hacc; simpl.
  - rewrite hex_digit_lower, Hacc; [reflexivity|]. apply Z.mod_pos_bound; lia.
  - assert (Hs : toLowerCase (String (hex_digit (n mod 16)) acc)
                 = String (hex_digit (n mod 16)) acc).
    { simpl. rewrite hex_digit_lower, Hacc; [reflexivity|].
      apply Z.mod_pos_bound; lia. }
    destruct (n / 16 =? 0); [exact Hs | by apply IH].
Qed.

Example toString16_address : toString16 0xaabbccddeeff = "aabbccddeeff".
Proof. reflexivity. Qed.

Example toString16_no_leading_zero : toString16 0x00a1b2c3d4e5 = "a1b2c3d4e5".
Proof. reflexivity. Qed.

Example toString16_zero : toString16 0 = "0".
Proof. reflexivity. Qed.

Example readUIntLE_address :
  readUIntLE (manufacturerData a_station) 2 6 = Some 0xaabbccddeeff.
Proof. reflexivity. Qed.

(** The rendering has no upper-case letter. *)
Lemma toString16_lower n : toLowerCase (toString16 n) = toString16 n.
Proof. by apply hex_digits_lower. Qed.

Lemma truthy_ne s : truthy s = true <-> s <> "".
Proof. destruct s; simpl; split; congruence. Qed.

(** C6, as stated, fails: the self-address check is guarded by
    [address &&].  The payload below embeds the address 1, rendered
    ["1"], which differs from the device's (empty) address and from its
    normal form, and yet its readings are decoded; the same holds when
    the address is [undefined]. *)
Lemma self_address_check_skipped_without_address :
  toString16 (le_value (take 6 (drop 2 (manufacturerData anonymous)))) = "1" /\
  address anonymous = Some "" /\
  normalize "" = "" /\
  discoverHandler raw_readings true JsNull anonymous
    = Normal [mkReading "raw" 7] /\
  discoverHandler raw_readings true JsNull
    (mkPeripheral "id1" None "TP" (manufacturerData anonymous))
    = Normal [mkReading "raw" 7].
Proof. vm_compute. repeat split. Qed.

Section Pipeline.
Variable parseReadings : list byte -> list Reading.

(** C6, amended: the handler never throws; it passes no reading when
    the payload is shorter than 9 bytes, when its first two bytes,
    little-endian, are not the manufacturer identifier, or when the
    device reports an address that is not empty once its [:] are
    removed and bytes [2,8), little-endian and rendered in lower-case
    hex, differ from that address (or from its lower-cased form); in
    every other case it passes no reading or exactly what the decoder
    makes of the bytes from offset 8, and then all checks have passed.
    With no address reported the self-address check is skipped. *)
Theorem advertisement_checks (readingHandler : bool) (a : addresses)
    (p : peripheral) :
  let data := manufacturerData p in
  let embedded := toString16 (le_value (take 6 (drop 2 data))) in
  let r := discoverHandler parseReadings readingHandler a p in
  (forall e, r <> Throw e) /\
  ((length data < 9)%nat -> r = Normal []) /\
  (readUInt16LE data 0 <> Some COMPANY_ID -> r = Normal []) /\
  (forall s, stripped_address (address p) = Some s -> s <> "" ->
             embedded <> s -> r = Normal []) /\
  (forall s, address p = Some s -> replace_colons s <> "" ->
             embedded <> normalize s -> r = Normal []) /\
  (r = Normal [] \/
   ((9 <= length data)%nat /\
    readUInt16LE data 0 = Some COMPANY_ID /\
    (forall s, stripped_address (address p) = Some s -> s <> "" ->
               embedded = s) /\
    r = Normal (parseReadings (slice data 8)))).
Proof.
  intros data embedded r.
  assert (Hstrip : forall s, address p = Some s -> replace_colons s <> "" ->
            stripped_address (address p) = Some (replace_colons s)).
  { intros s Hs Hne. rewrite Hs. simpl.
    destruct s; [by simpl in Hne | reflexivity]. }
  assert (Hmain :
    (forall e, r <> Throw e) /\
    ((length data < 9)%nat -> r = Normal []) /\
    (readUInt16LE data 0 <> Some COMPANY_ID -> r = Normal []) /\
    (forall s, stripped_address (address p) = Some s -> s <> "" ->
               embedded <> s -> r = Normal []) /\
    (r = Normal [] \/
     ((9 <= length data)%nat /\
      readUInt16LE data 0 = Some COMPANY_ID /\
      (forall s, stripped_address (address p) = Some s -> s <> "" ->
                 embedded = s) /\
      r = Normal (parseReadings (slice data 8))))).
  { subst r. unfold discoverHandler. fold data.
    destruct (Z.ltb_spec (Z.of_nat (length data)) 9) as [Hlt|Hge].
    { repeat split; try congruence; try (intros; reflexivity). by left. }
    unfold readUInt16LE.
    rewrite (readUIntLE_in_range data 0 2) by lia.
    destruct (Z.eqb_spec (le_value (take 2 (drop 0 data))) COMPANY_ID)
      as [Hc|Hc]; simpl negb; cbv iota.
    2:{ repeat split; try congruence; try (intros; reflexivity). by left. }
    unfold self_address_differs.
    rewrite (readUIntLE_in_range data 2 6) by lia. fold embedded.
    destruct (stripped_address (address p)) as [s|] eqn:Hs.
    2:{ destruct (rejected_by a None), readingHandler;
        repeat split; try congruence; try lia;
        first [ by left | right; repeat split; (congruence || lia) ]. }
    destruct (truthy s) eqn:Ht.
    2:{ assert (s = "") as -> by (by destruct s).
        destruct (rejected_by a (Some "")), readingHandler;
        repeat split; try congruence; try lia;
        first [ by left | right; repeat split; (congruence || lia) ]. }
    destruct (String.eqb_spec embedded s) as [He|He]; simpl negb; cbv iota.
    2:{ repeat split; try congruence; try (intros; reflexivity). by left. }
    destruct (rejected_by a (Some s)), readingHandler;
      repeat split; try congruence; try lia;
      first [ by left | right; repeat split; (congruence || lia) ]. }
  destruct Hmain as (H1 & H2 & H3 & H4 & H5).
  repeat split; try assumption.
  intros s Hs Hne Hemb.
  apply (H4 (replace_colons s)); [by apply Hstrip | exact Hne |].
  intros Heq. apply Hemb. unfold normalize.
  rewrite <- AddressFacts.lower_replace_comm, <- Heq.
  symmetry. apply toString16_lower.
Qed.
End Pipeline.

Lemma advertisement_checks_witness :
  discoverHandler tagged_readings true JsNull too_short = Normal [] /\
  discoverHandler tagged_readings true JsNull impostor = Normal [].
Proof.
  split.
  - pose proof (advertisement_checks tagged_readings true JsNull too_short) as H.
    cbv zeta in H. destruct H as (_ & Hshort & _).
    apply Hshort. simpl. lia.
  - pose proof (advertisement_checks tagged_readings true JsNull impostor) as H.
    cbv zeta in H. destruct H as (_ & _ & _ & _ & Hnorm & _).
    apply (Hnorm "AA:BB:CC:DD:EE:FF"); [reflexivity | discriminate | discriminate].
Defined.

End DecoderFacts.

(** ** Scan sessions *)
Module ScannerFacts.

(** Case analysis on the tests made by the handlers. *)
Ltac case_branch :=
  match goal with
  | |- context [String.eqb ?a ?b] => destruct (String.eqb a b)
  | |- context [match ?m with Connectable => _ | Continuous => _ end] =>
      destruct m
  | |- context [discoverHandler ?f ?h ?a ?p] =>
      destruct (discoverHandler f h a p)
  end.

Section Sessions.
Variable parseReadings : list byte -> list Reading.

Local Abbreviation step := (Scanner.step parseReadings).
Local Abbreviation run := (Scanner.run parseReadings).

Lemma start_consistent m h a state : consistent (start m h a state).
Proof.
  unfold start, consistent, startScanning.
  destruct (String.eqb state "poweredOn"); simpl; split; done.
Qed.

Lemma step_consistent s ev : consistent s -> consistent (fst (step s ev)).
Proof.
  unfold consistent. intros [H1 H2].
  assert (Hp : Scanner.s_phase s <> Ended -> s_promise s = Pending).
  { intros Hne. destruct (s_promise s); [reflexivity| |];
      exfalso; apply Hne, H2; congruence. }
  destruct s as [m a h st ph sts pr cs]; simpl in *.
  destruct ph; try (assert (pr = Pending) as -> by (apply Hp; congruence));
    destruct ev as [st'| |[e|]|p|]; simpl;
    unfold powerOn_stateChangeHandler, stateChangeHandler;
    repeat (simpl; case_branch);
    simpl; split; intros; try congruence; try (apply H1; reflexivity).
Qed.

Lemma step_mode s ev : s_mode (fst (step s ev)) = s_mode s.
Proof.
  destruct s as [m a h st ph sts pr cs].
  destruct ev as [st'| |[e|]|p|], ph; simpl;
    unfold powerOn_stateChangeHandler, stateChangeHandler;
    repeat (simpl; case_branch); reflexivity.
Qed.

Lemma run_snoc s evs ev : run s (evs ++ [ev]) = fst (step (run s evs) ev).
Proof. unfold Scanner.run. by rewrite fold_left_app. Qed.

Lemma run_consistent s evs : consistent s -> consistent (run s evs).
Proof.
  intros Hs. induction evs as [|ev evs IH] using rev_ind; [exact Hs|].
  rewrite run_snoc. by apply step_consistent.
Qed.

Lemma run_mode s evs : s_mode (run s evs) = s_mode s.
Proof.
  induction evs as [|ev evs IH] using rev_ind; [reflexivity|].
  by rewrite run_snoc, step_mode.
Qed.

Lemma start_mode m h a state : s_mode (start m h a state) = m.
Proof. unfold start. by destruct (String.eqb state "poweredOn"). Qed.

Lemma scanning_pending s :
  consistent s -> Scanner.s_phase s = Scanning -> s_promise s = Pending.
Proof.
  intros [_ H] Hph. destruct (s_promise s); [reflexivity| |];
    (assert (Scanner.s_phase s = Ended) by (apply H; congruence)); congruence.
Qed.

(** C8: in a running scan of either mode, a state change to anything
    but ["poweredOn"] stops the scan and rejects it with the
    adapter-state error; an explicit [stopScan], once the adapter has
    reported the stop, resolves it, with the stations discovered in
    [scan] and with no value in [scanForReadings]. *)
Theorem scan_ends_by_state_change_or_stop (m : mode) (h : bool)
    (a : addresses) (initial : string) (evs : list Scanner.event)
    (state : string) :
  let s := run (start m h a initial) evs in
  Scanner.s_phase s = Scanning ->
  (state <> "poweredOn" ->
   let s' := fst (step s (StateChange state)) in
   s_promise s' = Rejected (AdapterStateError state) /\
   Scanner.s_phase s' = Ended /\
   calls s' = (calls s ++ [StopScanning])%list) /\
  (let s' := run (stopScan s) (replies (calls s) (calls (stopScan s))) in
   Scanner.s_phase s' = Ended /\
   s_promise s' = Fulfilled match m with
                            | Connectable => Stations (stations s)
                            | Continuous => Void
                            end).
Proof.
  intros s Hph.
  assert (Hc : consistent s)
    by (apply run_consistent, start_consistent).
  assert (Hm : s_mode s = m)
    by (unfold s; by rewrite run_mode, start_mode).
  pose proof (scanning_pending s Hc Hph) as Hp.
  split.
  - intros Hne. unfold Scanner.step. rewrite Hph. simpl.
    unfold stateChangeHandler.
    destruct (String.eqb_spec state "poweredOn") as [->|_]; [done|].
    simpl. by rewrite Hp.
  - unfold replies, stopScan, call. simpl.
    rewrite drop_app_length. simpl.
    unfold Scanner.step. simpl. rewrite Hph. simpl.
    unfold scanStopHandler. simpl. rewrite Hp, Hm. simpl.
    by destruct m.
Qed.
End Sessions.

Lemma scan_ends_by_state_change_or_stop_witness :
  let s := Scanner.run raw_readings (scan JsNull "poweredOn")
               [ScanStarted None; Discover a_station] in
  s_promise (fst (Scanner.step raw_readings s
                    (StateChange "poweredOff")))
    = Rejected (AdapterStateError "poweredOff") /\
  s_promise (Scanner.run raw_readings (stopScan s) [ScanStop])
    = Fulfilled (Stations [new_WeatherStation a_station]).
Proof.
  pose proof (scan_ends_by_state_change_or_stop raw_readings
                Connectable false JsNull "poweredOn"
                [ScanStarted None; Discover a_station]
                "poweredOff" eq_refl) as [Hchange Hstop].
  split.
  - apply Hchange. discriminate.
  - apply Hstop.
Defined.

End ScannerFacts.

(** ** [getRecord] *)
Module AggregatorFacts.
Import Aggregator.

Lemma indexOf_found l x : indexOf l x <> -1 -> x ∈ l.
Proof.
  induction l as [|y l IH]; simpl; [congruence|].
  destruct (String.eqb_spec y x) as [->|_]; [intros _; left|].
  destruct (Z.eqb_spec (indexOf l x) (-1)) as [|Hne]; [congruence|].
  intros _. right. by apply IH.
Qed.

Lemma same_scan_refl g : same_scan g g.
Proof.
  repeat split. exists []. rewrite app_nil_r.
  repeat split; [constructor | intros [H|H]; done | by left].
Qed.

Lemma readingHandler_same_scan g r : same_scan g (readingHandler g r).
Proof.
  unfold readingHandler.
  destruct (negb (indexOf (includedReadings g) (name r) =? -1));
    [|apply same_scan_refl].
  simpl.
  destruct (record_size (record_add r (record g))
            >=? Z.of_nat (length (includedReadings g))).
  - repeat split. exists [StopScanning]. simpl.
    repeat split; [by constructor | by right].
  - repeat split. exists []. rewrite app_nil_r. simpl.
    repeat split; [constructor | intros [H|H]; done | by left].
Qed.

Lemma same_scan_trans g1 g2 g3 :
  same_scan g1 g2 -> same_scan g2 g3 -> same_scan g1 g3.
Proof.
  intros (Hi & Hp & Hph & Hsp & Hm & x & Hc & Hx & Ht & Ht')
         (Hi' & Hp' & Hph' & Hsp' & Hm' & y & Hc' & Hy & Hu & Hu').
  repeat split; try congruence.
  exists (x ++ y)%list. rewrite Hc', Hc, app_assoc.
  repeat split.
  - by apply Forall_app.
  - intros [H|H]; apply Hu.
    + left. apply Ht. by left.
    + destruct x; [right; by destruct y|]. left. apply Ht. by right.
  - destruct Hu' as [Hu'|Hu']; [|right; by destruct x, y].
    destruct Ht' as [Ht'|Ht']; [left; congruence|right; by destruct x].
Qed.

Lemma fold_same_scan rs : forall g, same_scan g (fold_left readingHandler rs g).
Proof.
  induction rs as [|r rs IH]; intros g; simpl; [apply same_scan_refl|].
  eapply same_scan_trans; [apply readingHandler_same_scan | apply IH].
Qed.

Lemma readingHandler_included g r :
  includedReadings (readingHandler g r) = includedReadings g.
Proof. apply readingHandler_same_scan. Qed.

Lemma readingHandler_only_requested g r :
  only_requested g -> only_requested (readingHandler g r).
Proof.
  intros Hg n. rewrite readingHandler_included.
  unfold readingHandler.
  destruct (Z.eqb_spec (indexOf (includedReadings g) (name r)) (-1)) as [|Hne];
    simpl; [apply Hg|].
  assert (Hrec : forall n, is_Some (record_add r (record g) !! n) ->
                           n ∈ includedReadings g).
  { intros k. unfold record_add. rewrite lookup_insert.
    destruct (decide (name r = k)) as [<-|_]; [|apply Hg].
    intros _. by apply indexOf_found. }
  destruct (record_size _ >=? _); simpl; apply Hrec.
Qed.

Lemma fold_only_requested rs : forall g,
  only_requested g -> only_requested (fold_left readingHandler rs g).
Proof.
  induction rs as [|r rs IH]; intros g Hg; simpl; [exact Hg|].
  by apply IH, readingHandler_only_requested.
Qed.

Lemma readingHandler_record g r :
  record (readingHandler g r)
  = if accepted (includedReadings g) r then record_add r (record g)
    else record g.
Proof.
  unfold readingHandler, accepted.
  destruct (negb (indexOf (includedReadings g) (name r) =? -1));
    [|reflexivity].
  simpl. by destruct (record_size _ >=? _).
Qed.

Lemma fold_record rs : forall g,
  record (fold_left readingHandler rs g)
  = insert_accepted (includedReadings g) rs (record g).
Proof.
  induction rs as [|r rs IH]; intros g; simpl; [reflexivity|].
  rewrite IH, readingHandler_included, readingHandler_record. reflexivity.
Qed.

(** Once a batch holds an accepted reading and leaves the record at the
    requested size, the timer is cleared and a stop has been asked. *)
Lemma fold_full rs : forall g,
  Exists (fun r => accepted (includedReadings g) r = true) rs ->
  record_size (record (fold_left readingHandler rs g))
    >= Z.of_nat (length (includedReadings g)) ->
  timeout (fold_left readingHandler rs g) = false /\
  exists extra, calls (scanning (fold_left readingHandler rs g))
                = (calls (scanning g) ++ extra)%list /\
                Forall (eq StopScanning) extra /\ extra <> [].
Proof.
  induction rs as [|r rs IH] using rev_ind; intros g Hex Hsize.
  { by apply Exists_nil in Hex. }
  rewrite fold_left_app in *. simpl in *.
  set (g1 := fold_left readingHandler rs g) in *.
  pose proof (fold_same_scan rs g) as (Hi & _ & _ & _ & _ & x & Hc & Hx & _).
  fold g1 in Hi, Hc.
  destruct (accepted (includedReadings g) r) eqn:Hacc.
  - assert (Hrec : record (readingHandler g1 r) = record_add r (record g1))
      by (by rewrite readingHandler_record, Hi, Hacc).
    rewrite Hrec in Hsize.
    unfold readingHandler. unfold accepted in Hacc. rewrite Hi, Hacc.
    cbn [with_record record includedReadings]. rewrite ?Hi.
    destruct (record_size (record_add r (record g1))
              >=? Z.of_nat (length (includedReadings g))) eqn:E;
      [|rewrite Z.geb_leb in E; apply Z.leb_gt in E; lia].
    simpl. split; [reflexivity|].
    exists (x ++ [StopScanning])%list. rewrite Hc, app_assoc.
    repeat split; [apply Forall_app; split; [done|by constructor]|].
    by destruct x.
  - assert (Hsame : readingHandler g1 r = g1).
    { unfold readingHandler. unfold accepted in Hacc. by rewrite Hi, Hacc. }
    rewrite Hsame in *.
    apply Exists_app in Hex as [Hex|Hex].
    + by apply IH.
    + apply Exists_cons in Hex as [Hex|Hex]; [congruence|].
      by apply Exists_nil in Hex.
Qed.

(** A record that holds only requested names and as many of them as
    were requested holds every requested name. *)
Lemma full_record_complete (rec : gmap string Reading) (included : list string) :
  (forall n, is_Some (rec !! n) -> n ∈ included) ->
  record_size rec >= Z.of_nat (length included) ->
  forall n, n ∈ included -> is_Some (rec !! n).
Proof.
  intros Hsub Hsize n Hn. unfold record_size in Hsize.
  assert (Hdom : dom rec ⊆ (list_to_set included : gset string)).
  { intros k Hk. apply elem_of_dom in Hk. apply elem_of_list_to_set. auto. }
  assert (Hle : (size (list_to_set included : gset string) <= length included)%nat).
  { clear. induction included as [|x l IH].
    - by rewrite list_to_set_nil, size_empty.
    - rewrite list_to_set_cons, size_union_alt, size_singleton. cbn [length].
      pose proof (subseteq_size (list_to_set l ∖ {[x]} : gset string)
                    (list_to_set l) (subseteq_difference_l _ _ _ (reflexivity _))).
      lia. }
  assert (Heq : dom rec = (list_to_set included : gset string)).
  { apply set_subseteq_size_eq; [exact Hdom|]. rewrite size_dom. lia. }
  apply elem_of_dom. rewrite Heq. by apply elem_of_list_to_set.
Qed.

Section Runs.
Variable parseReadings : list byte -> list Reading.

Local Abbreviation step := (Aggregator.step parseReadings).
Local Abbreviation deliver := (Aggregator.deliver parseReadings).
Local Abbreviation run := (Aggregator.run parseReadings).
Local Abbreviation drain := (Aggregator.drain parseReadings).
Local Abbreviation scan_step := (Scanner.step parseReadings).

(** A session that is over hears nothing. *)
Lemma ended_step s ev :
  Scanner.s_phase s = Ended ->
  snd (scan_step s ev) = [] /\
  Scanner.s_phase (fst (scan_step s ev)) = Ended /\
  s_promise (fst (scan_step s ev)) = s_promise s /\
  calls (fst (scan_step s ev)) = calls s.
Proof.
  intros Hph. unfold Scanner.step. rewrite Hph.
  destruct ev as [st| |[e|]|p|]; simpl; by rewrite ?Hph.
Qed.

(** A step only adds calls. *)
Lemma scan_step_calls s ev :
  exists extra, calls (fst (scan_step s ev)) = (calls s ++ extra)%list.
Proof.
  destruct s as [m a h st ph sts pr cs].
  destruct ev as [st'| |[e|]|p|], ph; simpl;
    try (exists []; by rewrite app_nil_r).
  - unfold powerOn_stateChangeHandler.
    destruct (String.eqb st' "poweredOn"); simpl;
      [by eexists | exists []; by rewrite app_nil_r].
  - unfold stateChangeHandler.
    destruct (String.eqb st' "poweredOn"); simpl;
      [exists []; by rewrite app_nil_r | by eexists].
  - destruct m; simpl; [exists []; by rewrite app_nil_r|].
    destruct (discoverHandler _ _ _ _); exists []; by rewrite app_nil_r.
Qed.

Lemma consistent_same s s' :
  Scanner.s_phase s' = Scanner.s_phase s -> s_promise s' = s_promise s ->
  consistent s -> consistent s'.
Proof. unfold consistent. by intros -> ->. Qed.

Lemma getRecord_invariant included a state :
  invariant (getRecord included a state).
Proof.
  unfold getRecord, invariant, follows, only_requested. simpl.
  split; [apply ScannerFacts.start_consistent|].
  split; [apply ScannerFacts.start_mode|].
  split.
  - unfold scanForReadings, start.
    by destruct (String.eqb state "poweredOn").
  - intros n [r Hr]. by rewrite lookup_empty in Hr.
Qed.

Lemma step_included g ev : includedReadings (step g ev) = includedReadings g.
Proof.
  destruct ev as [|ev]; simpl.
  - unfold on_timeout. by destruct (timeout g).
  - destruct (scan_step (scanning g) ev) as [s' rs].
    unfold settle.
    pose proof (fold_same_scan rs (with_scanning s' g)) as [Hi _].
    by destruct (s_promise _).
Qed.

Lemma step_invariant g ev : invariant g -> invariant (step g ev).
Proof.
  intros (Hc & Hm & Hf & Hr).
  destruct ev as [|ev]; simpl.
  { unfold on_timeout. destruct (timeout g); repeat split; try apply Hc; done. }
  destruct (scan_step (scanning g) ev) as [s' rs] eqn:Hstep.
  pose proof (ScannerFacts.step_consistent parseReadings _ ev Hc) as Hc'.
  pose proof (ScannerFacts.step_mode parseReadings (scanning g) ev) as Hm'.
  rewrite Hstep in Hc', Hm'. simpl in Hc', Hm'.
  set (g1 := with_scanning s' g).
  pose proof (fold_same_scan rs g1) as (Hi & Hp & Hph & Hsp & Hmd & _).
  pose proof (fold_only_requested rs g1 Hr) as Hr2.
  pose proof (fold_record rs g1) as Hrec.
  set (g2 := fold_left readingHandler rs g1) in *.
  simpl in Hi, Hp, Hph, Hsp, Hmd, Hrec.
  assert (Hc2 : consistent (scanning g2))
    by (by apply (consistent_same s')).
  assert (Hold : Scanner.s_phase (scanning g) = Ended ->
                 rs = [] /\ s_promise s' = s_promise (scanning g)).
  { intros He. pose proof (ended_step _ ev He) as (H1 & _ & H3 & _).
    rewrite Hstep in H1, H3. by simpl in *. }
  assert (Hnew : Scanner.s_phase (scanning g) <> Ended -> g_promise g = Pending).
  { intros Hne. unfold follows in Hf. rewrite Hf.
    destruct (s_promise (scanning g)) eqn:E; [reflexivity| |];
      exfalso; apply Hne, Hc; congruence. }
  assert (Hcase : Scanner.s_phase (scanning g) = Ended \/
                  Scanner.s_phase (scanning g) <> Ended).
  { destruct (Scanner.s_phase (scanning g)); (by left) || (by right). }
  assert (Hm2 : s_mode (scanning g2) = Continuous) by congruence.
  unfold settle.
  destruct (s_promise (scanning g2)) as [|v|e] eqn:E2;
    (split; [exact Hc2|]); (split; [exact Hm2|]); (split; [|exact Hr2]);
    unfold follows; simpl; rewrite E2, Hp.
  - destruct Hcase as [He|Hne]; [|by apply Hnew].
    destruct (Hold He) as [_ Hs]. unfold follows in Hf.
    by rewrite Hf, <- Hs, <- Hsp.
  - destruct Hcase as [He|Hne]; [|by rewrite (Hnew Hne)].
    destruct (Hold He) as [Hrs Hs]. unfold follows in Hf.
    rewrite Hrec, Hrs, Hf, <- Hs, <- Hsp. reflexivity.
  - destruct Hcase as [He|Hne]; [|by rewrite (Hnew Hne)].
    destruct (Hold He) as [_ Hs]. unfold follows in Hf.
    by rewrite Hf, <- Hs, <- Hsp.
Qed.

Lemma agg_run evs : forall w, agg (run w evs) = fold_left step evs (agg w).
Proof.
  unfold Aggregator.run.
  induction evs as [|ev evs IH]; intros w; simpl; [reflexivity|].
  by rewrite IH.
Qed.

Lemma fold_invariant evs : forall g,
  invariant g -> invariant (fold_left step evs g).
Proof.
  induction evs as [|ev evs IH]; intros g Hg; simpl; [exact Hg|].
  by apply IH, step_invariant.
Qed.

Lemma fold_included evs : forall g,
  includedReadings (fold_left step evs g) = includedReadings g.
Proof.
  induction evs as [|ev evs IH]; intros g; simpl; [reflexivity|].
  by rewrite IH, step_included.
Qed.

Lemma replies_stops old new : Forall (eq ScanStop) (replies old new).
Proof.
  unfold replies. induction (drop (length old) new) as [|c l IH]; simpl.
  - constructor.
  - apply Forall_app. split; [|exact IH].
    destruct c; simpl; repeat constructor.
Qed.

Lemma run_inflight evs : forall w,
  Forall (eq ScanStop) (inflight w) ->
  Forall (eq ScanStop) (inflight (run w evs)).
Proof.
  unfold Aggregator.run.
  induction evs as [|ev evs IH]; intros w Hw; simpl; [exact Hw|].
  apply IH. simpl. apply Forall_app. split; [exact Hw|apply replies_stops].
Qed.

(** After the scan has ended, further stop reports change nothing. *)
Lemma stops_after_end l : forall g r,
  Forall (eq ScanStop) l ->
  Scanner.s_phase (scanning g) = Ended ->
  g_promise g = Fulfilled r ->
  let g' := fold_left step (map Adapter l) g in
  g_promise g' = Fulfilled r /\ Scanner.s_phase (scanning g') = Ended.
Proof.
  induction l as [|ev l IH]; intros g r Hl Hph Hp; simpl; [done|].
  apply Forall_cons in Hl as [<- Hl].
  apply IH; [exact Hl| |].
  - unfold Scanner.step. rewrite Hph. simpl. unfold settle. simpl.
    by destruct (s_promise (scanning g)).
  - unfold Scanner.step. rewrite Hph. simpl. unfold settle. simpl.
    destruct (s_promise (scanning g)); simpl; by rewrite ?Hp.
Qed.

(** The first stop report of a running scan resolves [getRecord]
    with the record as it stands. *)
Lemma stops_resolve l g :
  invariant g ->
  Scanner.s_phase (scanning g) = Scanning ->
  Forall (eq ScanStop) l -> l <> [] ->
  let g' := fold_left step (map Adapter l) g in
  g_promise g' = Fulfilled (record g) /\ Scanner.s_phase (scanning g') = Ended.
Proof.
  intros (Hc & Hm & Hf & _) Hph Hl Hne.
  destruct l as [|ev l]; [done|].
  apply Forall_cons in Hl as [<- Hl]. simpl.
  pose proof (ScannerFacts.scanning_pending _ Hc Hph) as Hp.
  unfold follows in Hf. rewrite Hp in Hf.
  apply stops_after_end; [exact Hl| |].
  - unfold Scanner.step. rewrite Hph. simpl. unfold settle. simpl.
    by rewrite Hp, Hm.
  - unfold Scanner.step. rewrite Hph. simpl. unfold settle. simpl.
    rewrite Hp, Hm. simpl. by rewrite Hf.
Qed.





(** C5: when a discover event brings an accepted reading and leaves
    the record with as many names as were requested, the record holds
    the accepted readings inserted in order, the timer is cleared (so
    that the deadline can no longer fire) and the adapter has been
    asked to stop within that event; the stop reported, [getRecord]
    resolves with that record, which holds every requested name. *)
Theorem full_record_stops_scan (included : list string) (a : addresses)
    (initial : string) (evs : list event) (p : peripheral) :
  let w := run (mkWorld (getRecord included a initial) []) evs in
  let g := agg w in
  let rs := snd (scan_step (scanning g) (Discover p)) in
  let w1 := deliver w (Adapter (Discover p)) in
  Scanner.s_phase (scanning g) = Scanning ->
  Exists (fun r => accepted included r = true) rs ->
  record_size (record (agg w1)) >= Z.of_nat (length included) ->
  record (agg w1) = insert_accepted included rs (record g) /\
  timeout (agg w1) = false /\
  (exists extra,
      calls (scanning (agg w1)) = (calls (scanning g) ++ extra)%list /\
      Forall (eq StopScanning) extra /\ extra <> []) /\
  step (agg w1) Deadline = agg w1 /\
  g_promise (agg (drain w1)) = Fulfilled (record (agg w1)) /\
  (forall n, n ∈ included -> is_Some (record (agg w1) !! n)).
Proof.
  intros w g rs w1 Hph Hex Hsize.
  assert (Hinv : invariant g).
  { unfold g, w. rewrite agg_run. apply fold_invariant, getRecord_invariant. }
  assert (Hincl : includedReadings g = included).
  { unfold g, w. by rewrite agg_run, fold_included. }
  assert (Hfl : Forall (eq ScanStop) (inflight w)).
  { unfold w. apply run_inflight. constructor. }
  pose proof (step_invariant g (Adapter (Discover p)) Hinv) as Hinv1.
  destruct Hinv as (Hc & Hm & Hf & Hr).
  pose proof (ScannerFacts.scanning_pending _ Hc Hph) as Hsp.
  assert (Hs : fst (scan_step (scanning g) (Discover p)) = scanning g).
  { unfold Scanner.step. rewrite Hph, Hm.
    by destruct (discoverHandler _ _ _ _). }
  set (g1 := fold_left readingHandler rs g).
  assert (Hagg : agg w1 = g1).
  { unfold w1, g1. unfold Aggregator.deliver. cbn [agg]. fold g.
    unfold Aggregator.step.
    rewrite (surjective_pairing (scan_step (scanning g) (Discover p))).
    rewrite Hs. fold rs.
    assert (Hg : with_scanning (scanning g) g = g) by (by destruct g).
    rewrite Hg. unfold settle.
    pose proof (fold_same_scan rs g) as (_ & _ & _ & Hsp' & _).
    by rewrite Hsp', Hsp. }
  pose proof (fold_same_scan rs g) as (_ & _ & Hph1 & _).
  fold g1 in Hph1.
  rewrite <- Hincl in Hex. rewrite Hagg, <- Hincl in Hsize.
  destruct (fold_full rs g Hex Hsize) as (Ht & extra & Hcalls & Hstop & Hne).
  fold g1 in Ht, Hcalls.
  assert (Hin : inflight w1
                = (inflight w ++ flat_map adapter_reply extra)%list).
  { unfold w1, Aggregator.deliver. cbn [inflight]. fold g.
    change (step g (Adapter (Discover p))) with (agg w1).
    rewrite Hagg, Hcalls. unfold replies. by rewrite drop_app_length. }
  assert (Hfl1 : Forall (eq ScanStop) (inflight w1)).
  { unfold w1, Aggregator.deliver. cbn [inflight].
    apply Forall_app. split; [exact Hfl|apply replies_stops]. }
  assert (Hne1 : inflight w1 <> []).
  { rewrite Hin. destruct extra as [|c extra]; [done|].
    apply Forall_cons in Hstop as [<- _]. simpl.
    by destruct (inflight w). }
  assert (Hinv1' : invariant (agg w1)) by exact Hinv1.
  assert (Hph1' : Scanner.s_phase (scanning (agg w1)) = Scanning)
    by (rewrite Hagg; congruence).
  destruct (stops_resolve (inflight w1) (agg w1) Hinv1' Hph1' Hfl1 Hne1)
    as [Hp _].
  rewrite Hincl in Hsize.
  split; [rewrite Hagg; unfold g1; by rewrite fold_record, Hincl|].
  split; [by rewrite Hagg|].
  split; [exists extra; by rewrite Hagg|].
  split; [rewrite Hagg; simpl; unfold on_timeout; by rewrite Ht|].
  split.
  - unfold Aggregator.drain. rewrite agg_run. cbn [agg]. exact Hp.
  - rewrite Hagg. apply full_record_complete; [|exact Hsize].
    destruct Hinv1 as (_ & _ & _ & Hr1). intros n Hn.
    rewrite <- Hincl, <- (step_included g (Adapter (Discover p))).
    apply Hr1. change (step g (Adapter (Discover p))) with (agg w1).
    by rewrite Hagg.
Qed.

End Runs.



Lemma full_record_stops_scan_witness :
  let w := run tagged_readings
             (mkWorld (getRecord ["temperature"; "humidity"] JsNull "poweredOn") [])
             [Adapter (ScanStarted None)] in
  let w1 := deliver tagged_readings w (Adapter (Discover two_readings)) in
  timeout (agg w1) = false /\
  g_promise (agg (drain tagged_readings w1))
    = Fulfilled (record (agg w1)) /\
  is_Some (record (agg w1) !! "humidity").
Proof.
  intros w w1.
  pose proof (full_record_stops_scan tagged_readings
                ["temperature"; "humidity"] JsNull "poweredOn"
                [Adapter (ScanStarted None)] two_readings) as H.
  cbv zeta in H.
  destruct H as (_ & Ht & _ & _ & Hp & Hall).
  - reflexivity.
  - apply Exists_cons_hd. reflexivity.
  - vm_compute. discriminate.
  - split; [exact Ht|]. split; [exact Hp|].
    apply Hall. right. left.
Defined.

End AggregatorFacts.

(** ** Commands and the connect handshake *)
Module StationFacts.
Import Station.

Lemma on_data_notify c nc d n : c_notify (on_data c nc d n) = c_notify c.
Proof.
  unfold on_data, dataHandler.
  destruct (c_listening c && characteristic_eqb (c_notify c) nc); [|reflexivity].
  destruct n; [|reflexivity].
  destruct (readUInt8 d 0) as [b|]; [|reflexivity].
  by destruct (b =? c_responseCommand c).
Qed.

Lemma characteristic_eqb_refl nc : characteristic_eqb nc nc = true.
Proof. by destruct nc. Qed.

(** A command whose listener is removed hears nothing more. *)
Lemma deliver_all_deaf ns : forall c,
  c_listening c = false -> deliver_all c ns = c.
Proof.
  induction ns as [|n ns IH]; intros c Hc; simpl; [reflexivity|].
  unfold deliver_all in *. simpl.
  assert (Hsame : on_data c (c_notify c) n.1 n.2 = c)
    by (unfold on_data; by rewrite Hc).
  rewrite Hsame. by apply IH.
Qed.

Lemma on_data_pending c d n :
  c_listening c = true -> c_promise c = Pending ->
  on_data c (c_notify c) d n
  = if matches (c_responseCommand c) (d, n)
    then with_c_promise (Fulfilled d) (removeListener c)
    else c.
Proof.
  intros Hl Hp. unfold on_data, dataHandler, matches. simpl.
  rewrite Hl, characteristic_eqb_refl. simpl.
  destruct n; simpl; [|reflexivity].
  destruct (readUInt8 d 0) as [b|]; [|reflexivity].
  destruct (b =? c_responseCommand c); [|reflexivity].
  by rewrite Hp.
Qed.

Lemma deliver_all_pending ns : forall c,
  c_listening c = true -> c_promise c = Pending ->
  deliver_all c ns
  = match List.find (matches (c_responseCommand c)) ns with
    | Some n => with_c_promise (Fulfilled n.1) (removeListener c)
    | None => c
    end.
Proof.
  induction ns as [|[d n] ns IH]; intros c Hl Hp; [reflexivity|].
  change (deliver_all c ((d, n) :: ns))
    with (deliver_all (on_data c (c_notify c) d n) ns).
  rewrite (on_data_pending c d n Hl Hp). simpl.
  destruct (matches (c_responseCommand c) (d, n)).
  - by apply deliver_all_deaf.
  - by apply IH.
Qed.

(** C9: for a command just sent, a 'data' event settles the promise if
    and only if it is flagged as a notification and its first byte is
    the expected response code; it then resolves the command with the
    whole payload and removes the listener, and otherwise leaves the
    command as it was.  Over a run of events the first match wins. *)
Theorem first_matching_notification_resolves (wc nc : characteristic)
    (data : list byte) (responseCommand : Z)
    (receivedData : list byte) (isNotification : bool)
    (ns : list (list byte * bool)) :
  let c := new_command wc nc data responseCommand in
  let c' := on_data c nc receivedData isNotification in
  (c_promise c' <> Pending <->
   isNotification = true /\ readUInt8 receivedData 0 = Some responseCommand) /\
  (c_promise c' <> Pending ->
   c_promise c' = Fulfilled receivedData /\ c_listening c' = false) /\
  (c_promise c' = Pending -> c' = c) /\
  c_promise (deliver_all c ns)
    = match List.find (matches responseCommand) ns with
      | Some n => Fulfilled n.1
      | None => Pending
      end /\
  c_listening (deliver_all c ns)
    = match List.find (matches responseCommand) ns with
      | Some _ => false
      | None => true
      end.
Proof.
  intros c c'.
  assert (Hc' : c' = if matches responseCommand (receivedData, isNotification)
                     then with_c_promise (Fulfilled receivedData) (removeListener c)
                     else c)
    by (apply (on_data_pending c); reflexivity).
  assert (Hm : matches responseCommand (receivedData, isNotification) = true <->
               isNotification = true /\ readUInt8 receivedData 0 = Some responseCommand).
  { unfold matches. simpl. destruct isNotification; simpl; [|split; [done|by intros []]].
    destruct (readUInt8 receivedData 0) as [b|]; [|split; [done|by intros []]].
    destruct (Z.eqb_spec b responseCommand) as [->|Hne]; split; try done.
    intros [_ [=]]. done. }
  rewrite (deliver_all_pending ns c eq_refl eq_refl).
  rewrite Hc'. clear Hc'.
  destruct (matches responseCommand (receivedData, isNotification)); simpl.
  - repeat split; try done; try (by apply Hm).
    + by destruct (List.find _ ns).
    + by destruct (List.find _ ns).
  - repeat split; try done.
    + intros H. apply Hm in H. done.
    + by destruct (List.find _ ns).
    + by destruct (List.find _ ns).
Qed.

Lemma first_matching_notification_resolves_witness :
  let c := on_data (new_command DataWrite DataNotify [x01]%byte 0x80)
             DataNotify [x80; x2a]%byte true in
  c_promise c = Fulfilled [x80; x2a]%byte /\ c_listening c = false.
Proof.
  pose proof (first_matching_notification_resolves DataWrite DataNotify
                [x01]%byte 0x80 [x80; x2a]%byte true []) as H.
  cbv zeta in H. destruct H as (_ & H & _).
  apply H. discriminate.
Defined.

(** C3: when the write of a pending command fails, its callback
    rejects the promise with the write error and removes the listener;
    no notification delivered afterwards, matching or not, changes
    that. *)
Theorem write_failure_rejects (c : command) (e : Error)
    (ns : list (list byte * bool)) :
  c_promise c = Pending ->
  let c' := write_callback c (Some e) in
  c_promise c' = Rejected e /\
  c_listening c' = false /\
  deliver_all c' ns = c'.
Proof.
  intros Hp c'. unfold c', write_callback. simpl. rewrite Hp. simpl.
  repeat split. by apply deliver_all_deaf.
Qed.

Lemma write_failure_rejects_witness :
  let c := write_callback (new_command SettingsWrite SettingsNotify init1 0x80)
             (Some (mkError "write failed")) in
  c_promise (deliver_all c [([x80; x00]%byte, true)])
    = Rejected (mkError "write failed").
Proof.
  intros c.
  pose proof (write_failure_rejects
                (new_command SettingsWrite SettingsNotify init1 0x80)
                (mkError "write failed") [([x80; x00]%byte, true)] eq_refl) as H.
  cbv zeta in H. destruct H as (Hr & _ & Hd).
  unfold c. rewrite Hd. exact Hr.
Defined.

Ltac case_step :=
  match goal with
  | |- context [match ?x with Pending => _ | Fulfilled _ => _ | Rejected _ => _ end] =>
      is_var x; destruct x
  | |- context [if ?b then _ else _] => is_var b; destruct b
  | |- context [match ?x with Some _ => _ | None => _ end] => destruct x eqn:?
  | |- context [match ?x with Pending => _ | Fulfilled _ => _ | Rejected _ => _ end] =>
      destruct x eqn:?
  end.

Ltac unfold_step :=
  unfold step, on_disconnect, finish_stage, initialize_settle, follow,
    _initialize, _setupListeners, _getCharacteristics, writeSetting, _write,
    begin_stage, resolve, reject in *.

Lemma connect_guarded pc : guarded (connect pc).
Proof. destruct pc; unfold guarded; simpl; auto. Qed.

(** A settled [connect] stays as it is. *)
Lemma step_connected s ev :
  connected s <> Pending -> connected (step s ev) = connected s.
Proof.
  destruct s as [ph l cs fi stg con lg]; simpl. intros Hc.
  destruct con; [done| |];
    destruct ev as [[e'|]|[e'|]|[e'|]| |i [e'|]|nc d n], ph; unfold_step; simpl in *;
    repeat (case_step; simpl in *); reflexivity.
Qed.

Lemma step_guarded s ev : guarded s -> guarded (step s ev).
Proof.
  intros Hg Hc'.
  assert (Hc : connected s = Pending).
  { destruct (connected s) eqn:E; [done| |];
      rewrite step_connected in Hc' by (by rewrite E); congruence. }
  specialize (Hg Hc). revert Hc'.
  destruct s as [ph l cs fi stg con lg]; simpl in *. subst con.
  destruct ph;
    lazymatch type of Hg with _ /\ _ => destruct Hg as [-> ->] | _ => idtac end;
    destruct ev as [[e|]|[e|]|[e|]| |i [e|]|nc d n]; unfold_step; simpl in *;
    repeat (case_step; simpl in *); intros; simpl in *; try done; auto.
Qed.

Lemma run_guarded evs : forall s, guarded s -> guarded (run s evs).
Proof.
  induction evs as [|ev evs IH]; intros s Hs; simpl; [exact Hs|].
  by apply IH, step_guarded.
Qed.

Lemma run_connected evs : forall s,
  connected s <> Pending -> connected (run s evs) = connected s.
Proof.
  induction evs as [|ev evs IH]; intros s Hs; simpl; [reflexivity|].
  rewrite IH; rewrite step_connected; done.
Qed.

(** Past the subscriptions no write is issued by the handshake. *)
Lemma step_past_subscribe s ev :
  past_subscribe s ->
  past_subscribe (step s ev) /\ writes (step s ev) = writes s.
Proof.
  unfold past_subscribe, writes.
  destruct s as [ph l cs fi stg con lg]; simpl.
  destruct ev as [[e'|]|[e'|]|[e'|]| |i [e'|]|nc d n], ph; unfold_step; simpl in *;
    intros Hp; try done;
    repeat (case_step; simpl in *);
    rewrite ?List.filter_app, ?app_nil_r; simpl; rewrite ?app_nil_r; done.
Qed.

Lemma run_past_subscribe evs : forall s,
  past_subscribe s -> writes (run s evs) = writes s.
Proof.
  induction evs as [|ev evs IH]; intros s Hs; simpl; [reflexivity|].
  destruct (step_past_subscribe s ev Hs) as [Hp Hw].
  by rewrite IH, Hw.
Qed.

(** C2: a disconnect delivered while [_initialize] is in progress and
    [connect] undecided rejects [connect] with the disconnect error,
    for good, and the handshake issues no write after it. *)
Theorem disconnect_during_initialize (peripheral_connected : bool)
    (evs later : list event) :
  let s := run (connect peripheral_connected) evs in
  s_phase s = Initializing ->
  connected s = Pending ->
  let s' := step s Disconnect in
  connected s' = Rejected DisconnectedError /\
  connected (run s' later) = Rejected DisconnectedError /\
  writes s' = writes s /\
  writes (run s' later) = writes s.
Proof.
  intros s Hph Hc s'.
  assert (Hg : guarded s) by apply run_guarded, connect_guarded.
  unfold guarded in Hg. rewrite Hph in Hg. destruct (Hg Hc) as [Hl Hs].
  assert (Hps : past_subscribe s) by (unfold past_subscribe; by rewrite Hph).
  destruct (step_past_subscribe s Disconnect Hps) as [Hps' Hw].
  assert (Hr : connected s' = Rejected DisconnectedError).
  { unfold s'. simpl. unfold on_disconnect. rewrite Hl.
    unfold follow. simpl. rewrite Hs. simpl. by rewrite Hc. }
  split; [exact Hr|].
  split; [rewrite run_connected; [exact Hr | by rewrite Hr]|].
  split; [exact Hw|].
  by rewrite (run_past_subscribe later s' Hps').
Qed.

Lemma disconnect_during_initialize_witness :
  let s := run (connect false)
             [ConnectCb None; DiscoverCb None; SubscribeCb None; SubscribeCb None] in
  connected (run (step s Disconnect) [Data SettingsNotify [x80]%byte true])
    = Rejected DisconnectedError /\
  writes (run (step s Disconnect) [Data SettingsNotify [x80]%byte true])
    = [Write SettingsWrite init1; Write SettingsWrite init2;
       Write SettingsWrite init3].
Proof.
  pose proof (disconnect_during_initialize false
                [ConnectCb None; DiscoverCb None; SubscribeCb None; SubscribeCb None]
                [Data SettingsNotify [x80]%byte true] eq_refl eq_refl) as H.
  cbv zeta in H. destruct H as (_ & Hc & _ & Hw).
  split; [exact Hc | exact Hw].
Defined.

(** C1 does not hold of the code: [_initialize] issues its three writes
    at once, so that the second write is issued with no response to the
    first received before it, and only the first command decides the
    outcome.  Here the writes of the second and third command fail, the
    first one is answered, and [connect] is fulfilled. *)
Theorem initialize_issues_all_writes_at_once :
  let s := run (connect true) [DiscoverCb None; SubscribeCb None; SubscribeCb None] in
  (forall s0, log (_initialize s0)
              = (log s0 ++ [Write SettingsWrite init1; Write SettingsWrite init2;
                            Write SettingsWrite init3])%list) /\
  log s = [Emit "connecting"; DiscoverCharacteristics;
           Subscribe SettingsNotify; Subscribe DataNotify;
           Write SettingsWrite init1; Write SettingsWrite init2;
           Write SettingsWrite init3] /\
  ~ answered_before (log s) (Write SettingsWrite init2) /\
  connected s = Pending /\
  let failed := mkError "write failed" in
  let s' := run s [WriteCb 1 (Some failed); WriteCb 2 (Some failed);
                   Data SettingsNotify [x80]%byte true] in
  (c_promise <$> commands s') = [Fulfilled [x80]%byte; Rejected failed; Rejected failed] /\
  connected s' = Fulfilled tt.
Proof.
  split; [intros s0; destruct s0; simpl; by rewrite <- !app_assoc|].
  split; [reflexivity|].
  split; [|by vm_compute].
  intros H.
  destruct (H [Emit "connecting"; DiscoverCharacteristics;
               Subscribe SettingsNotify; Subscribe DataNotify;
               Write SettingsWrite init1]
              [Write SettingsWrite init3] eq_refl) as (d & Hd & _).
  repeat (apply elem_of_cons in Hd as [Hd|Hd]; [discriminate|]).
  by apply elem_of_nil in Hd.
Qed.

End StationFacts.

(** * Further properties *)

(** ** Allow-lists *)
Module AddressExtras.

(** [indexOf] returns the first position of the element, and [-1]
    exactly when the element is absent. *)
Lemma indexOf_first l x :
  (indexOf l x = -1 /\ x ∉ l) \/
  (exists i : nat, indexOf l x = Z.of_nat i /\ l !! i = Some x /\
                   forall j : nat, (j < i)%nat -> l !! j <> Some x).
Proof.
  induction l as [|y l IH]; [left; split; [reflexivity|apply not_elem_of_nil]|].
  simpl. destruct (String.eqb_spec y x) as [->|Hne].
  - right. exists 0%nat. repeat split. intros j Hj. lia.
  - destruct IH as [[-> Hnot]|(i & Hi & Hl & Hfirst)].
    + left. split; [reflexivity|]. intros [Heq|Hin]%elem_of_cons; congruence.
    + right. rewrite Hi. exists (S i).
      destruct (Z.eqb_spec (Z.of_nat i) (-1)); [lia|].
      split; [lia|]. split; [exact Hl|].
      intros [|j] Hj; simpl; [congruence|]. apply Hfirst. lia.
Qed.

Lemma indexOf_absent l x : indexOf l x = -1 <-> x ∉ l.
Proof.
  destruct (indexOf_first l x) as [[H Hn]|(i & Hi & Hl & _)].
  - by split.
  - split; [lia|]. intros Hn. exfalso. apply Hn.
    apply list_elem_of_lookup. by exists i.
Qed.

(** X1: with an array as allow-list, [scan] keeps a discovered device
    exactly when the device reports an address and that address, its
    [:] removed, is an element of the array as given; with [null] (or
    [false]) it keeps every device.  A kept device yields one station
    built from the peripheral, a dropped one none. *)
Theorem scan_keeps_listed_devices (a : addresses) (p : peripheral) :
  (scan_discoverHandler a p = [new_WeatherStation p] \/
   scan_discoverHandler a p = []) /\
  (scan_discoverHandler a p = [new_WeatherStation p] <->
   match a with
   | JsArray l => exists s, stripped_address (address p) = Some s /\ s ∈ l
   | _ => True
   end).
Proof.
  unfold scan_discoverHandler, rejected_by.
  destruct a as [| |l]; try (split; [by left|done]).
  destruct (stripped_address (address p)) as [s|]; simpl.
  - destruct (Z.eqb_spec (indexOf l s) (-1)) as [He|Hne].
    + split; [by right|]. split; [done|].
      intros (s' & [= <-] & Hin). by apply indexOf_absent in He.
    + split; [by left|]. split; [|done]. intros _. exists s. split; [done|].
      destruct (decide (s ∈ l)) as [|Hn]; [done|].
      by apply indexOf_absent in Hn.
  - split; [by right|]. split; [done|]. by intros (s & [=] & _).
Qed.

Lemma normalize_canonical s : canonical (normalize s) = true.
Proof.
  induction s as [|c s IH]; [reflexivity|].
  rewrite AddressFacts.normalize_cons.
  destruct (Ascii.eqb c ":") eqn:E; [exact IH|].
  simpl. rewrite IH, AddressFacts.lower_char_colon, E. simpl.
  rewrite andb_true_r. clear.
  destruct c as [[] [] [] [] [] [] [] []]; reflexivity.
Qed.

(** X2: [getNormalizedAddresses] returns an array only for a non-empty
    array, and then the array of the normal forms, none of which holds a
    [:] or an upper-case letter; it never returns an empty array; and
    normalizing its result again changes nothing. *)
Theorem normalized_allow_list (a : addresses) :
  getNormalizedAddresses (getNormalizedAddresses a) = getNormalizedAddresses a /\
  (forall l', getNormalizedAddresses a = JsArray l' ->
     l' <> [] /\ Forall (fun s => canonical s = true) l' /\
     exists l, a = JsArray l /\ l' = map normalize l) /\
  (addresses_truthy (getNormalizedAddresses a) = false <->
   a = JsNull \/ a = JsFalse \/ a = JsArray []).
Proof.
  destruct a as [| |l]; simpl.
  - repeat split; try done. by left.
  - repeat split; try done. by right; left.
  - destruct l as [|x l]; simpl.
    + repeat split; try done. by right; right.
    + rewrite !AddressFacts.normalize_idempotent.
      assert (Hm : map normalize (map normalize l) = map normalize l).
      { rewrite map_map. apply map_ext. intros s.
        apply AddressFacts.normalize_idempotent. }
      rewrite Hm. split; [reflexivity|]. split.
      * intros l' [= <-]. split; [done|]. split.
        -- constructor; [apply normalize_canonical|].
           apply Forall_forall. intros s [t [-> _]]%list_elem_of_fmap.
           apply normalize_canonical.
        -- by exists (x :: l).
      * split; [done|]. intros [H|[H|H]]; discriminate.
Qed.



Lemma scan_keeps_listed_devices_witness :
  scan_discoverHandler (JsArray ["001122334455"; "aabbccddeeff"]) a_station
  = [new_WeatherStation a_station].
Proof.
  apply (scan_keeps_listed_devices (JsArray ["001122334455"; "aabbccddeeff"])
           a_station).
  exists "aabbccddeeff". split; [reflexivity|]. right. left.
Defined.

Lemma normalized_allow_list_witness :
  Forall (fun s => canonical s = true) ["aabbccddeeff"; "0011"].
Proof.
  destruct (normalized_allow_list (JsArray ["AA:BB:CC:DD:EE:FF"; "00:11"]))
    as (_ & H & _).
  destruct (H ["aabbccddeeff"; "0011"] eq_refl) as (_ & Hc & _). exact Hc.
Defined.

End AddressExtras.

(** ** The rendering of the embedded address *)
Module BufferExtras.

Lemma byte_val_range b : 0 <= byte_val b < 256.
Proof.
  unfold byte_val. pose proof (Byte.to_N_bounded b). lia.
Qed.

Lemma le_value_range bs : 0 <= le_value bs < 256 ^ Z.of_nat (length bs).
Proof.
  induction bs as [|b bs IH]; [simpl; lia|].
  cbn [le_value length]. pose proof (byte_val_range b).
  rewrite Nat2Z.inj_succ, Z.pow_succ_r by lia. lia.
Qed.

Lemma digit_of_hex_digit d : 0 <= d < 16 -> digit_value (hex_digit d) = d.
Proof.
  intros H.
  assert (Hd : d = 0 \/ d = 1 \/ d = 2 \/ d = 3 \/ d = 4 \/ d = 5 \/ d = 6 \/
               d = 7 \/ d = 8 \/ d = 9 \/ d = 10 \/ d = 11 \/ d = 12 \/
               d = 13 \/ d = 14 \/ d = 15) by lia.
  repeat (destruct Hd as [->|Hd]; [reflexivity|]). by subst.
Qed.

Lemma hex_digit_zero d : 0 <= d < 16 -> hex_digit d = "0"%char -> d = 0.
Proof.
  intros H.
  assert (Hd : d = 0 \/ d = 1 \/ d = 2 \/ d = 3 \/ d = 4 \/ d = 5 \/ d = 6 \/
               d = 7 \/ d = 8 \/ d = 9 \/ d = 10 \/ d = 11 \/ d = 12 \/
               d = 13 \/ d = 14 \/ d = 15) by lia.
  repeat (destruct Hd as [->|Hd]; [by vm_compute|]). subst. by vm_compute.
Qed.

(** The fuel left covers the digits left. *)
Lemma fuel_step n f :
  0 <= n -> Z.log2 n <= Z.of_nat (S f) -> n / 16 <> 0 ->
  0 < n / 16 /\ Z.log2 (n / 16) <= Z.of_nat f.
Proof.
  intros Hn Hlog Hq.
  assert (Hpos : 0 < n / 16) by (pose proof (Z.div_pos n 16); lia).
  split; [exact Hpos|].
  assert (Hn0 : 0 < n) by (destruct (Z.eq_dec n 0) as [->|]; [done|lia]).
  assert (Hlt : n < 2 ^ (Z.of_nat (S f) + 1)).
  { apply Z.log2_lt_pow2; lia. }
  assert (Hhalf : n / 2 < 2 ^ (Z.of_nat f + 1)).
  { apply Z.div_lt_upper_bound; [lia|].
    rewrite <- Z.pow_succ_r by lia.
    replace (Z.succ (Z.of_nat f + 1)) with (Z.of_nat (S f) + 1) by lia.
    exact Hlt. }
  assert (Hle : n / 16 <= n / 2) by (apply Z.div_le_compat_l; lia).
  assert (Z.log2 (n / 16) < Z.of_nat f + 1); [|lia].
  apply Z.log2_lt_pow2; lia.
Qed.

Lemma small_number n : 0 <= n -> Z.log2 n <= 0 -> n / 16 = 0 /\ n mod 16 = n.
Proof.
  intros Hn Hlog.
  assert (n < 2).
  { destruct (Z.eq_dec n 0) as [->|]; [lia|].
    change 2 with (2 ^ 1). apply Z.log2_lt_pow2; lia. }
  split; [apply Z.div_small; lia | apply Z.mod_small; lia].
Qed.

Lemma hex_digits_value fuel : forall n acc,
  0 <= n -> Z.log2 n <= Z.of_nat fuel ->
  hex_value_from 0 (hex_digits fuel n acc) = hex_value_from n acc.
Proof.
  induction fuel as [|f IH]; intros n acc Hn Hlog; cbn [hex_digits].
  - destruct (small_number n Hn Hlog) as [_ Hm]. rewrite Hm.
    cbn [hex_value_from]. rewrite digit_of_hex_digit by (rewrite <- Hm;
      apply Z.mod_pos_bound; lia). f_equal; lia.
  - destruct (Z.eqb_spec (n / 16) 0) as [Hq|Hq].
    + assert (Hm : n mod 16 = n).
      { pose proof (Z.div_mod n 16). lia. }
      rewrite Hm. cbn [hex_value_from].
      rewrite digit_of_hex_digit by (rewrite <- Hm; apply Z.mod_pos_bound; lia).
      f_equal; lia.
    + destruct (fuel_step n f Hn Hlog Hq) as [Hpos Hlog'].
      rewrite IH by lia. cbn [hex_value_from].
      rewrite digit_of_hex_digit by (apply Z.mod_pos_bound; lia).
      f_equal. pose proof (Z.div_mod n 16). lia.
Qed.

Lemma hex_digits_head fuel : forall n acc,
  0 <= n -> Z.log2 n <= Z.of_nat fuel ->
  exists c r, hex_digits fuel n acc = String c r /\ (c = "0"%char -> n = 0).
Proof.
  induction fuel as [|f IH]; intros n acc Hn Hlog; cbn [hex_digits].
  - destruct (small_number n Hn Hlog) as [_ Hm]. rewrite Hm.
    eexists _, _. split; [reflexivity|]. apply hex_digit_zero.
    rewrite <- Hm. apply Z.mod_pos_bound; lia.
  - destruct (Z.eqb_spec (n / 16) 0) as [Hq|Hq].
    + assert (Hm : n mod 16 = n) by (pose proof (Z.div_mod n 16); lia).
      rewrite Hm. eexists _, _. split; [reflexivity|]. apply hex_digit_zero.
      rewrite <- Hm. apply Z.mod_pos_bound; lia.
    + destruct (fuel_step n f Hn Hlog Hq) as [Hpos Hlog'].
      destruct (IH (n / 16) (String (hex_digit (n mod 16)) acc)) as (c & r & -> & Hc);
        [lia|lia|].
      exists c, r. split; [reflexivity|]. intros H. apply Hc in H. lia.
Qed.

Lemma toString16_of_zero : toString16 0 = "0".
Proof. reflexivity. Qed.

(** [n.toString(16)] writes a non-negative [n] back: read as
    hexadecimal digits the string denotes [n]; and it has no leading
    zero, the digit ["0"] standing first only in the rendering of 0. *)
Lemma toString16_denotes (n : Z) :
  0 <= n ->
  hex_value (toString16 n) = n /\
  exists c r, toString16 n = String c r /\ (c = "0"%char -> n = 0 /\ r = "").
Proof.
  intros Hn. unfold hex_value, toString16. split.
  - rewrite hex_digits_value; [reflexivity|exact Hn|].
    rewrite Z2Nat.id; [lia|apply Z.log2_nonneg].
  - destruct (hex_digits_head (Z.to_nat (Z.log2 n)) n "" Hn) as (c & r & Hr & Hc).
    { rewrite Z2Nat.id; [lia|apply Z.log2_nonneg]. }
    exists c, r. split; [exact Hr|]. intros H. specialize (Hc H). subst n.
    split; [reflexivity|]. by injection Hr as _ <-.
Qed.

Lemma toString16_denotes_example :
  hex_value (toString16 0xaabbccddeeff) = 0xaabbccddeeff.
Proof. apply (toString16_denotes 0xaabbccddeeff). lia. Defined.

Section Pipeline.
Variable parseReadings : list byte -> list Reading.

(** X4: a device whose address, its [:] removed, starts with the digit
    0 and has more than one character never passes the self-address
    check of [scanForReadings], whatever it advertises: the embedded
    address is rendered without leading zeros. *)
Theorem zero_led_address_never_decoded (readingHandler : bool) (a : addresses)
    (p : peripheral) (r : string) :
  stripped_address (address p) = Some (String "0" r) ->
  r <> "" ->
  discoverHandler parseReadings readingHandler a p = Normal [].
Proof.
  intros Hs Hr. unfold discoverHandler.
  destruct (Z.ltb_spec (Z.of_nat (length (manufacturerData p))) 9) as [|Hge];
    [reflexivity|].
  unfold readUInt16LE. rewrite DecoderFacts.readUIntLE_in_range by lia.
  destruct (negb _); [reflexivity|].
  rewrite Hs. unfold self_address_differs. cbn [truthy].
  rewrite DecoderFacts.readUIntLE_in_range by lia.
  set (n := le_value (take 6 (drop 2 (manufacturerData p)))).
  destruct (toString16_denotes n) as (_ & c & t & Ht & Hc).
  { apply le_value_range. }
  destruct (String.eqb_spec (toString16 n) (String "0" r)) as [He|]; [|reflexivity].
  exfalso. rewrite Ht in He. injection He as -> ->.
  destruct (Hc eq_refl) as [_ ->]. done.
Qed.

(** X5: when the self-address check lets a payload through for a device
    that reports a non-empty address, the address (its [:] removed) is
    the lower-case hexadecimal numeral, without leading zeros, of the
    48-bit little-endian number held by bytes [2,8). *)
Theorem self_address_check_compares_numbers (data : list byte) (s : string) :
  s <> "" ->
  self_address_differs data (Some s) = Normal false ->
  s = toString16 (le_value (take 6 (drop 2 data))) /\
  hex_value s = le_value (take 6 (drop 2 data)) /\
  0 <= hex_value s < 2 ^ 48.
Proof.
  intros Hs. unfold self_address_differs.
  destruct s as [|c s]; [done|]. cbn [truthy].
  unfold readUIntLE.
  destruct (2 + 6 <=? length data)%nat eqn:Hlen; [|discriminate].
  set (bs := take 6 (drop 2 data)).
  destruct (String.eqb_spec (toString16 (le_value bs)) (String c s)) as [He|];
    [|discriminate].
  intros _. rewrite <- He.
  destruct (toString16_denotes (le_value bs)) as [Hv _]; [apply le_value_range|].
  split; [reflexivity|]. split; [exact Hv|]. rewrite Hv.
  pose proof (le_value_range bs) as Hr.
  assert (Hl : length bs = 6%nat).
  { unfold bs. apply Nat.leb_le in Hlen.
    rewrite length_take, length_drop. lia. }
  rewrite Hl in Hr. exact Hr.
Qed.
End Pipeline.

Lemma zero_led_address_never_decoded_witness :
  discoverHandler tagged_readings true JsNull
    (mkPeripheral "id4" (Some "0a:bb:cc:dd:ee:ff") "TP"
       [x42; x48; xff; xee; xdd; xcc; xbb; x0a; x01]%byte) = Normal [].
Proof.
  apply (zero_led_address_never_decoded tagged_readings true JsNull _
           "abbccddeeff"); [reflexivity | discriminate].
Defined.

Lemma self_address_check_compares_numbers_witness :
  hex_value "aabbccddeeff"
  = le_value (take 6 (drop 2 (manufacturerData a_station))).
Proof.
  apply (self_address_check_compares_numbers (manufacturerData a_station)
           "aabbccddeeff"); [discriminate | reflexivity].
Defined.

End BufferExtras.

(** ** Scan sessions, further *)
Module ScannerExtras.

Section Sessions.
Variable parseReadings : list byte -> list Reading.

Local Abbreviation step := (Scanner.step parseReadings).
Local Abbreviation run := (Scanner.run parseReadings).

Lemma run_app s e1 e2 : run s (e1 ++ e2) = run (run s e1) e2.
Proof. unfold Scanner.run. by rewrite fold_left_app. Qed.

Lemma last_cons {A} (x d : A) l : List.last (x :: l) d = List.last l x.
Proof.
  revert x d. induction l as [|y l IH]; intros x d; [reflexivity|].
  change (List.last (x :: y :: l) d) with (List.last (y :: l) d).
  by rewrite (IH y d), (IH y x).
Qed.

(** While [powerOn] waits, state changes other than to ["poweredOn"]
    are only recorded. *)
Lemma waiting_records_state states : forall s,
  Scanner.s_phase s = PoweringOn ->
  Forall (fun st => st <> "poweredOn") states ->
  let s' := run s (map StateChange states) in
  Scanner.s_phase s' = PoweringOn /\ s_promise s' = s_promise s /\
  calls s' = calls s /\ noble_state s' = List.last states (noble_state s).
Proof.
  induction states as [|st states IH]; intros s Hph Hall; [done|].
  apply Forall_cons in Hall as [Hst Hall].
  cbn [map]. change (run s (StateChange st :: map StateChange states))
    with (run (fst (step s (StateChange st))) (map StateChange states)).
  assert (Hs : fst (step s (StateChange st)) = with_state st s).
  { unfold Scanner.step. rewrite Hph. simpl.
    unfold powerOn_stateChangeHandler.
    by destruct (String.eqb_spec st "poweredOn"). }
  rewrite Hs. rewrite last_cons.
  destruct (IH (with_state st s) Hph Hall) as (H1 & H2 & H3 & H4).
  by repeat split.
Qed.

(** X6: when the adapter is not powered on and no state change brings
    it to ["poweredOn"] before the 5 s timer of [powerOn] fires, the
    scan (of either kind) is rejected with the time-out error naming the
    state observed last, and the adapter is never asked to scan. *)
Theorem powerOn_timeout_names_last_state (m : mode) (h : bool) (a : addresses)
    (initial : string) (states : list string) :
  initial <> "poweredOn" ->
  Forall (fun st => st <> "poweredOn") states ->
  let s := run (start m h a initial) (map StateChange states ++ [PowerTimeout]) in
  s_promise s = Rejected (AdapterTimeoutError (List.last states initial)) /\
  Scanner.s_phase s = Ended /\
  calls s = [].
Proof.
  intros Hi Hall s. unfold s. rewrite run_app.
  assert (Hstart : start m h a initial
                   = mkSession m a h initial PoweringOn [] Pending []).
  { unfold start. by destruct (String.eqb_spec initial "poweredOn"). }
  destruct (waiting_records_state states (start m h a initial)) as (H1 & H2 & H3 & H4);
    [by rewrite Hstart | exact Hall |].
  set (s1 := run (start m h a initial) (map StateChange states)) in *.
  rewrite Hstart in H2, H3, H4. simpl in H2, H3, H4.
  unfold Scanner.run. simpl. unfold Scanner.step. rewrite H1. simpl.
  by rewrite H2, H3, H4.
Qed.

(** What a session has asked of the adapter, by phase. *)
Lemma calls_by_phase_step s ev :
  calls_by_phase s -> calls_by_phase (fst (step s ev)).
Proof.
  unfold calls_by_phase.
  destruct s as [m a h st ph sts pr cs]; simpl.
  destruct ev as [st'| |[e|]|p|], ph; simpl;
    unfold powerOn_stateChangeHandler, stateChangeHandler;
    repeat (simpl; ScannerFacts.case_branch); simpl;
    intros H; try (destruct H as [->|[->| ->]]); subst; simpl; auto.
Qed.

(** X7: a session asks the adapter to start scanning at most once, not
    before the adapter is powered on, with duplicates off for [scan] and
    on for [scanForReadings]; of itself it asks it to stop at most once,
    and only as it ends. *)
Theorem scan_started_at_most_once (m : mode) (h : bool) (a : addresses)
    (initial : string) (evs : list Scanner.event) :
  let s := run (start m h a initial) evs in
  let started := StartScanning (allowDuplicates m) in
  match Scanner.s_phase s with
  | PoweringOn => calls s = []
  | Starting | Scanning => calls s = [started]
  | Ended => calls s = [] \/ calls s = [started] \/
             calls s = [started; StopScanning]
  end.
Proof.
  intros s started.
  assert (Hs : calls_by_phase s).
  { unfold s. induction evs as [|ev evs IH] using rev_ind.
    - unfold start, calls_by_phase.
      by destruct (String.eqb initial "poweredOn").
    - rewrite run_app. by apply calls_by_phase_step. }
  unfold calls_by_phase in Hs. unfold started.
  replace m with (s_mode s); [exact Hs|].
  unfold s. by rewrite ScannerFacts.run_mode, ScannerFacts.start_mode.
Qed.

Lemma discovering s ps :
  Scanner.s_phase s = Scanning -> s_mode s = Connectable ->
  let s' := run s (map Discover ps) in
  Scanner.s_phase s' = Scanning /\ s_mode s' = Connectable /\
  s_promise s' = s_promise s /\ s_addresses s' = s_addresses s /\
  calls s' = calls s /\
  stations s' = (stations s ++ flat_map (scan_discoverHandler (s_addresses s)) ps)%list.
Proof.
  revert s. induction ps as [|p ps IH]; intros s Hph Hm.
  { simpl. by rewrite app_nil_r. }
  cbn [map]. change (run s (Discover p :: map Discover ps))
    with (run (fst (step s (Discover p))) (map Discover ps)).
  assert (Hs : fst (step s (Discover p))
               = with_stations (stations s ++ scan_discoverHandler (s_addresses s) p) s).
  { unfold Scanner.step. by rewrite Hph, Hm. }
  rewrite Hs.
  destruct (IH (with_stations (stations s ++ scan_discoverHandler (s_addresses s) p) s)
              Hph Hm) as (H1 & H2 & H3 & H4 & H5 & H6).
  repeat split; try assumption.
  rewrite H6. simpl. by rewrite <- app_assoc.
Qed.

Lemma run_addresses s evs : s_addresses (run s evs) = s_addresses s.
Proof.
  induction evs as [|ev evs IH] using rev_ind; [reflexivity|].
  rewrite run_app. unfold Scanner.run at 1. simpl. rewrite <- IH.
  generalize (run s evs). clear. intros s.
  destruct s as [m a h st ph sts pr cs].
  destruct ev as [st'| |[e|]|p|], ph; simpl;
    unfold powerOn_stateChangeHandler, stateChangeHandler;
    repeat (simpl; ScannerFacts.case_branch); reflexivity.
Qed.

(** X8: a running [scan] that is stopped resolves with the stations it
    held, followed by one station for each device discovered since that
    passes the allow-list, in the order of discovery (a device reported
    twice is listed twice). *)
Theorem scan_resolves_with_kept_devices (a : addresses) (initial : string)
    (evs : list Scanner.event) (ps : list peripheral) :
  let s := run (scan a initial) evs in
  Scanner.s_phase s = Scanning ->
  s_promise (run s (map Discover ps ++ [ScanStop]))
  = Fulfilled (Stations (stations s ++ flat_map (scan_discoverHandler a) ps)).
Proof.
  intros s Hph.
  assert (Hm : s_mode s = Connectable).
  { unfold s, scan. by rewrite ScannerFacts.run_mode, ScannerFacts.start_mode. }
  assert (Ha : s_addresses s = a).
  { unfold s, scan, start. rewrite run_addresses.
    by destruct (String.eqb initial "poweredOn"). }
  assert (Hp : s_promise s = Pending).
  { apply ScannerFacts.scanning_pending; [|exact Hph].
    apply ScannerFacts.run_consistent, ScannerFacts.start_consistent. }
  rewrite run_app.
  destruct (discovering s ps Hph Hm) as (H1 & H2 & H3 & _ & _ & H6).
  set (s1 := run s (map Discover ps)) in *.
  unfold Scanner.run. simpl. unfold Scanner.step. rewrite H1. simpl.
  unfold scanStopHandler. simpl. by rewrite H2, H3, Hp, H6, Ha.
Qed.

Lemma ended_session_hears_nothing (s : session) (later : list Scanner.event) :
  Scanner.s_phase s = Ended ->
  let s' := run s later in
  Scanner.s_phase s' = Ended /\ s_promise s' = s_promise s /\
  stations s' = stations s /\ calls s' = calls s.
Proof.
  revert s. induction later as [|ev later IH]; intros s Hph; [done|].
  change (run s (ev :: later)) with (run (fst (step s ev)) later).
  assert (Hs : Scanner.s_phase (fst (step s ev)) = Ended /\
               s_promise (fst (step s ev)) = s_promise s /\
               stations (fst (step s ev)) = stations s /\
               calls (fst (step s ev)) = calls s).
  { unfold Scanner.step. rewrite Hph.
    destruct ev as [st| |[e|]|p|]; simpl; by rewrite ?Hph. }
  destruct Hs as (H1 & H2 & H3 & H4).
  destruct (IH _ H1) as (G1 & G2 & G3 & G4).
  repeat split; congruence.
Qed.
(** X9: once the promise of a scan is settled, whichever way (power-on
    time-out, refused start, stop, or state change), the session is
    over and no event changes its promise or its stations or makes it
    call the adapter: its listeners are gone. *)
Theorem settled_scan_hears_nothing (m : mode) (h : bool) (a : addresses)
    (initial : string) (evs later : list Scanner.event) :
  let s := run (start m h a initial) evs in
  s_promise s <> Pending ->
  let s' := run s later in
  Scanner.s_phase s = Ended /\ Scanner.s_phase s' = Ended /\
  s_promise s' = s_promise s /\
  stations s' = stations s /\ calls s' = calls s.
Proof.
  intros s Hp s'.
  assert (Hc : consistent s)
    by apply ScannerFacts.run_consistent, ScannerFacts.start_consistent.
  assert (Hph : Scanner.s_phase s = Ended) by (by apply Hc).
  split; [exact Hph|]. by apply ended_session_hears_nothing.
Qed.
End Sessions.

Lemma powerOn_timeout_names_last_state_witness :
  s_promise (Scanner.run raw_readings (scan JsNull "unknown")
               [StateChange "resetting"; StateChange "poweredOff"; PowerTimeout])
  = Rejected (AdapterTimeoutError "poweredOff").
Proof.
  apply (powerOn_timeout_names_last_state raw_readings Connectable false JsNull
           "unknown" ["resetting"; "poweredOff"]).
  - discriminate.
  - repeat constructor; discriminate.
Defined.

Lemma scan_resolves_with_kept_devices_witness :
  s_promise (Scanner.run raw_readings
               (Scanner.run raw_readings (scan (JsArray ["aabbccddeeff"]) "poweredOn")
                  [ScanStarted None])
               (map Discover [a_station; impostor; a_station] ++ [ScanStop]))
  = Fulfilled (Stations [new_WeatherStation a_station; new_WeatherStation a_station]).
Proof.
  apply (scan_resolves_with_kept_devices raw_readings (JsArray ["aabbccddeeff"])
           "poweredOn" [ScanStarted None] [a_station; impostor; a_station]).
  reflexivity.
Defined.

Lemma settled_scan_hears_nothing_witness :
  let s := Scanner.run raw_readings (scan JsNull "poweredOn")
             [ScanStarted (Some (mkError "busy"))] in
  s_promise (Scanner.run raw_readings s [ScanStarted None; Discover a_station; ScanStop])
  = Rejected (mkError "busy").
Proof.
  intros s.
  pose proof (settled_scan_hears_nothing raw_readings Connectable false JsNull
                "poweredOn" [ScanStarted (Some (mkError "busy"))]
                [ScanStarted None; Discover a_station; ScanStop]) as H.
  cbv zeta in H. destruct H as (_ & _ & H & _); [discriminate|exact H].
Defined.

End ScannerExtras.

(** ** [getRecord], further *)
Module AggregatorExtras.
Import Aggregator.

Lemma insert_accepted_snoc included rs r rec :
  insert_accepted included (rs ++ [r]) rec
  = if accepted included r then record_add r (insert_accepted included rs rec)
    else insert_accepted included rs rec.
Proof. unfold insert_accepted. by rewrite fold_left_app. Qed.

Lemma insert_accepted_lookup included rs rec n :
  insert_accepted included rs rec !! n
  = match last_seen included n rs with
    | Some r => Some r
    | None => rec !! n
    end.
Proof.
  induction rs as [|r rs IH] using rev_ind; [reflexivity|].
  rewrite insert_accepted_snoc. unfold last_seen.
  rewrite rev_app_distr. simpl.
  destruct (accepted included r) eqn:Ha; simpl; [|exact IH].
  unfold record_add. rewrite lookup_insert.
  destruct (String.eqb_spec (name r) n) as [->|Hne].
  - by rewrite decide_True.
  - rewrite decide_False by done. exact IH.
Qed.

Lemma last_seen_some included n rs r :
  last_seen included n rs = Some r ->
  r ∈ rs /\ name r = n /\ n ∈ included.
Proof.
  unfold last_seen. intros H. apply List.find_some in H as [Hin Hp].
  apply andb_true_iff in Hp as [Ha Hn].
  apply String.eqb_eq in Hn. subst n.
  split; [apply list_elem_of_In; by apply in_rev|]. split; [reflexivity|].
  apply AggregatorFacts.indexOf_found. unfold accepted in Ha.
  by destruct (Z.eqb_spec (indexOf included (name r)) (-1)).
Qed.

Section Runs.
Variable parseReadings : list byte -> list Reading.

Local Abbreviation step := (Aggregator.step parseReadings).
Local Abbreviation run := (Aggregator.run parseReadings).
Local Abbreviation scan_step := (Scanner.step parseReadings).

Lemma step_record g ev :
  record (step g ev)
  = match ev with
    | Deadline => record g
    | Adapter e =>
        insert_accepted (includedReadings g) (snd (scan_step (scanning g) e))
                        (record g)
    end.
Proof.
  destruct ev as [|e]; simpl.
  - unfold on_timeout. by destruct (timeout g).
  - destruct (scan_step (scanning g) e) as [s' rs]. simpl.
    pose proof (AggregatorFacts.fold_record rs (with_scanning s' g)) as Hr.
    simpl in Hr. unfold settle.
    by destruct (s_promise (scanning (fold_left readingHandler rs _))).
Qed.

(** X10: after an event, the record holds under each name the last
    reading of that name among the readings that the event delivered
    and [getRecord] was asked for, or else what it held before: the
    last reading seen wins, and a reading that was not asked for is
    never stored. *)
Theorem record_keeps_last_reading (g : aggregation) (ev : Scanner.event)
    (n : string) :
  let rs := snd (scan_step (scanning g) ev) in
  record (step g (Adapter ev)) !! n
  = match last_seen (includedReadings g) n rs with
    | Some r => Some r
    | None => record g !! n
    end /\
  (forall r, last_seen (includedReadings g) n rs = Some r ->
             r ∈ rs /\ name r = n /\ n ∈ includedReadings g) /\
  (n ∉ includedReadings g ->
   record (step g (Adapter ev)) !! n = record g !! n).
Proof.
  intros rs. rewrite step_record. fold rs. rewrite insert_accepted_lookup.
  split; [reflexivity|]. split; [intros r; apply last_seen_some|].
  intros Hn. destruct (last_seen (includedReadings g) n rs) as [r|] eqn:E;
    [|reflexivity].
  apply last_seen_some in E as (_ & _ & Hin). done.
Qed.

(** No event removes a name from the record, and the size of the
    record never decreases. *)
Lemma record_only_grows (g : aggregation) (ev : event) :
  (forall n, is_Some (record g !! n) -> is_Some (record (step g ev) !! n)) /\
  (size (record g) <= size (record (step g ev)))%nat.
Proof.
  assert (H : forall n, is_Some (record g !! n) ->
                        is_Some (record (step g ev) !! n)).
  { intros n Hn. rewrite step_record. destruct ev as [|e]; [exact Hn|].
    rewrite insert_accepted_lookup. by destruct (last_seen _ _ _). }
  split; [exact H|].
  rewrite <- !size_dom. apply subseteq_size.
  intros n Hn. apply elem_of_dom. apply H. by apply elem_of_dom.
Qed.

Lemma step_keyed g ev : keyed_by_name (record g) -> keyed_by_name (record (step g ev)).
Proof.
  intros Hg n r. rewrite step_record. destruct ev as [|e]; [apply Hg|].
  rewrite insert_accepted_lookup.
  destruct (last_seen _ _ _) as [r'|] eqn:E; [|apply Hg].
  intros [= <-]. by apply last_seen_some in E as (_ & H & _).
Qed.

Lemma fold_keyed evs : forall g,
  keyed_by_name (record g) -> keyed_by_name (record (fold_left step evs g)).
Proof.
  induction evs as [|ev evs IH]; intros g Hg; [exact Hg|].
  simpl. by apply IH, step_keyed.
Qed.

Lemma size_list_to_set_le (l : list string) :
  (size (list_to_set l : gset string) <= length l)%nat.
Proof.
  induction l as [|x l IH].
  - by rewrite list_to_set_nil, size_empty.
  - rewrite list_to_set_cons, size_union_alt, size_singleton. cbn [length].
    pose proof (subseteq_size (list_to_set l ∖ {[x]} : gset string)
                  (list_to_set l) (subseteq_difference_l _ _ _ (reflexivity _))).
    lia.
Qed.

Lemma size_list_to_set_dup (l : list string) :
  ~ NoDup l -> (size (list_to_set l : gset string) < length l)%nat.
Proof.
  induction l as [|x l IH]; intros Hd; [exfalso; apply Hd; constructor|].
  rewrite list_to_set_cons. cbn [length].
  destruct (decide (x ∈ l)) as [Hin|Hnin].
  - assert (Hs : ({[x]} ∪ list_to_set l : gset string) = list_to_set l).
    { apply subseteq_union_1_L, singleton_subseteq_l.
      by apply elem_of_list_to_set. }
    rewrite Hs. pose proof (size_list_to_set_le l). lia.
  - assert (Hl : ~ NoDup l) by (intros H; apply Hd; by constructor).
    specialize (IH Hl).
    rewrite size_union_alt, size_singleton.
    pose proof (subseteq_size (list_to_set l ∖ {[x]} : gset string)
                  (list_to_set l) (subseteq_difference_l _ _ _ (reflexivity _))).
    lia.
Qed.

Lemma requested_size (rec : gmap string Reading) (included : list string) :
  (forall n, is_Some (rec !! n) -> n ∈ included) ->
  (size rec <= size (list_to_set included : gset string))%nat.
Proof.
  intros H. rewrite <- size_dom. apply subseteq_size.
  intros n Hn. apply elem_of_list_to_set, H. by apply elem_of_dom.
Qed.

(** X11: at every point of a [getRecord] call the record holds only
    requested names, each reading under its own name, and so never more
    entries than there are distinct requested names. *)
Theorem record_holds_requested_names (included : list string) (a : addresses)
    (initial : string) (evs : list event) :
  let g := agg (run (mkWorld (getRecord included a initial) []) evs) in
  (forall n r, record g !! n = Some r -> name r = n /\ n ∈ included) /\
  (size (record g) <= size (list_to_set included : gset string))%nat /\
  (size (record g) <= length included)%nat.
Proof.
  intros g.
  assert (Hinv : invariant g).
  { unfold g. rewrite AggregatorFacts.agg_run.
    apply AggregatorFacts.fold_invariant, AggregatorFacts.getRecord_invariant. }
  assert (Hincl : includedReadings g = included).
  { unfold g. by rewrite AggregatorFacts.agg_run, AggregatorFacts.fold_included. }
  assert (Hk : keyed_by_name (record g)).
  { unfold g. rewrite AggregatorFacts.agg_run. apply fold_keyed.
    intros n r. simpl. by rewrite lookup_empty. }
  destruct Hinv as (_ & _ & _ & Hr). unfold only_requested in Hr.
  rewrite Hincl in Hr.
  pose proof (requested_size (record g) included Hr) as Hs.
  split; [|split; [exact Hs|]].
  - intros n r Hn. split; [by apply Hk|]. apply Hr. by exists r.
  - pose proof (size_list_to_set_le included). lia.
Qed.

(** X12: when a name is requested twice, [record.size] stays below
    [includedReadings.length], so that no reading clears the timer or
    stops the scan: the call can only end by its deadline or by a
    failure of the scan. *)
Theorem repeated_name_never_completes (included : list string) (a : addresses)
    (initial : string) (evs : list event) (rs : list Reading) :
  ~ NoDup included ->
  let g := agg (run (mkWorld (getRecord included a initial) []) evs) in
  let g' := fold_left readingHandler rs g in
  record_size (record g') < Z.of_nat (length included) /\
  timeout g' = timeout g /\
  calls (scanning g') = calls (scanning g).
Proof.
  intros Hd g g'.
  assert (Hinv : invariant g).
  { unfold g. rewrite AggregatorFacts.agg_run.
    apply AggregatorFacts.fold_invariant, AggregatorFacts.getRecord_invariant. }
  assert (Hincl : includedReadings g = included).
  { unfold g. by rewrite AggregatorFacts.agg_run, AggregatorFacts.fold_included. }
  destruct Hinv as (_ & _ & _ & Hr).
  assert (Hgen : forall rs g0,
             includedReadings g0 = included -> only_requested g0 ->
             let g1 := fold_left readingHandler rs g0 in
             record_size (record g1) < Z.of_nat (length included) /\
             timeout g1 = timeout g0 /\
             calls (scanning g1) = calls (scanning g0)).
  { clear - Hd. intros rs.
    assert (Hsmall : forall g0, includedReadings g0 = included ->
              only_requested g0 ->
              record_size (record g0) < Z.of_nat (length included)).
    { intros g0 Hi Ho. unfold only_requested in Ho. rewrite Hi in Ho.
      pose proof (requested_size (record g0) included Ho).
      pose proof (size_list_to_set_dup included Hd).
      unfold record_size. lia. }
    induction rs as [|r rs IH]; intros g0 Hi Ho; simpl.
    { by split; [apply Hsmall|]. }
    assert (Hi1 : includedReadings (readingHandler g0 r) = included)
      by (by rewrite AggregatorFacts.readingHandler_included).
    assert (Ho1 : only_requested (readingHandler g0 r))
      by (by apply AggregatorFacts.readingHandler_only_requested).
    destruct (IH _ Hi1 Ho1) as (H1 & H2 & H3).
    split; [exact H1|]. rewrite H2, H3.
    pose proof (Hsmall _ Hi1 Ho1) as Hlt.
    rewrite AggregatorFacts.readingHandler_record, Hi in Hlt.
    unfold readingHandler. fold (accepted (includedReadings g0) r).
    rewrite Hi.
    destruct (accepted included r); [|done].
    cbn [with_record record includedReadings]. rewrite Hi.
    destruct (Z.geb_spec (record_size (record_add r (record g0)))
                (Z.of_nat (length included))) as [Hge|_]; [lia|done]. }
  by apply Hgen.
Qed.

Lemma reachable_invariant included a initial evs :
  invariant (agg (run (mkWorld (getRecord included a initial) []) evs)).
Proof.
  rewrite AggregatorFacts.agg_run.
  apply AggregatorFacts.fold_invariant, AggregatorFacts.getRecord_invariant.
Qed.

Lemma pending_unless_ended g :
  invariant g -> Scanner.s_phase (scanning g) <> Ended ->
  s_promise (scanning g) = Pending /\ g_promise g = Pending.
Proof.
  intros (Hc & _ & Hf & _) Hne.
  assert (Hp : s_promise (scanning g) = Pending).
  { destruct (s_promise (scanning g)) eqn:E; [reflexivity| |];
      exfalso; apply Hne, Hc; congruence. }
  split; [exact Hp|]. unfold follows in Hf. by rewrite Hp in Hf.
Qed.

(** X13: each failure of the scan rejects a pending [getRecord] with the
    scan's error and clears the deadline timer: the time-out of the
    power-on wait, a refused start, and, during the scan, a state change
    away from ["poweredOn"] (which also stops the scan); the record is
    left as it was. *)
Theorem scan_failure_rejects_getRecord (included : list string) (a : addresses)
    (initial : string) (evs : list event) (e : Error) (state : string) :
  let g := agg (run (mkWorld (getRecord included a initial) []) evs) in
  (Scanner.s_phase (scanning g) = PoweringOn ->
   let g' := step g (Adapter PowerTimeout) in
   g_promise g' = Rejected (AdapterTimeoutError (noble_state (scanning g))) /\
   timeout g' = false /\ record g' = record g) /\
  (Scanner.s_phase (scanning g) = Starting ->
   let g' := step g (Adapter (ScanStarted (Some e))) in
   g_promise g' = Rejected e /\ timeout g' = false /\ record g' = record g) /\
  (Scanner.s_phase (scanning g) = Scanning -> state <> "poweredOn" ->
   let g' := step g (Adapter (StateChange state)) in
   g_promise g' = Rejected (AdapterStateError state) /\
   timeout g' = false /\ record g' = record g /\
   calls (scanning g') = (calls (scanning g) ++ [StopScanning])%list).
Proof.
  intros g. pose proof (reachable_invariant included a initial evs) as Hinv.
  fold g in Hinv.
  split; [|split]; intros Hph; intros;
    (destruct (pending_unless_ended g Hinv) as [Hsp Hp]; [congruence|]);
    subst g'; unfold Aggregator.step, Scanner.step; rewrite Hph; simpl;
    unfold settle, powerOn_timeout, stateChangeHandler; simpl;
    try (destruct (String.eqb_spec state "poweredOn"); [done|]); simpl;
    rewrite ?Hsp; simpl; rewrite ?Hp; repeat split.
Qed.

Lemma step_timer_cleared g ev : timer_cleared g -> timer_cleared (step g ev).
Proof.
  unfold timer_cleared. intros Hg. destruct ev as [|e]; simpl.
  - unfold on_timeout. destruct (timeout g) eqn:Ht; simpl; [done|].
    intros H. by rewrite <- Ht.
  - destruct (scan_step (scanning g) e) as [s' rs]. unfold settle.
    destruct (s_promise (scanning (fold_left readingHandler rs _))) eqn:E;
      simpl; [by rewrite E|done|done].
Qed.

Lemma reachable_timer_cleared included a initial evs :
  timer_cleared (agg (run (mkWorld (getRecord included a initial) []) evs)).
Proof.
  rewrite AggregatorFacts.agg_run.
  induction evs as [|ev evs IH] using rev_ind.
  - unfold timer_cleared, getRecord, scanForReadings, start. simpl.
    by destruct (String.eqb initial "poweredOn").
  - rewrite fold_left_app. simpl. by apply step_timer_cleared.
Qed.

Lemma settled_step g ev :
  invariant g -> timer_cleared g -> g_promise g <> Pending ->
  g_promise (step g ev) = g_promise g /\ record (step g ev) = record g /\
  timeout (step g ev) = false /\
  calls (scanning (step g ev)) = calls (scanning g).
Proof.
  intros (Hc & Hm & Hf & Hr) Ht Hp.
  assert (Hsp : s_promise (scanning g) <> Pending).
  { intros H. unfold follows in Hf. by rewrite H in Hf. }
  assert (Hph : Scanner.s_phase (scanning g) = Ended) by (by apply Hc).
  specialize (Ht Hsp).
  destruct ev as [|e].
  - simpl. unfold on_timeout. by rewrite Ht.
  - destruct (AggregatorFacts.ended_step parseReadings _ e Hph) as (H1 & H2 & H3 & H4).
    unfold Aggregator.step.
    destruct (scan_step (scanning g) e) as [s' rs]. simpl in *. subst rs.
    simpl. unfold settle. simpl. rewrite H3.
    unfold follows in Hf.
    destruct (s_promise (scanning g)) eqn:E; [done| |]; simpl;
      rewrite Hf; by repeat split.
Qed.

Lemma settled_timer g :
  invariant g -> timer_cleared g -> g_promise g <> Pending -> timeout g = false.
Proof.
  intros (_ & _ & Hf & _) Ht Hp. apply Ht.
  intros H. unfold follows in Hf. by rewrite H in Hf.
Qed.

(** X14: once [getRecord] is settled nothing changes it: whatever
    events follow, the deadline included, its promise and the record
    stay as they are, the timer stays cleared and the adapter is not
    called. *)
Theorem settled_getRecord_is_final (included : list string) (a : addresses)
    (initial : string) (evs later : list event) :
  let g := agg (run (mkWorld (getRecord included a initial) []) evs) in
  g_promise g <> Pending ->
  let g' := fold_left step later g in
  g_promise g' = g_promise g /\ record g' = record g /\
  timeout g' = false /\
  calls (scanning g') = calls (scanning g) /\
  step g Deadline = g.
Proof.
  intros g Hp g'.
  pose proof (reachable_invariant included a initial evs) as Hinv.
  pose proof (reachable_timer_cleared included a initial evs) as Ht.
  fold g in Hinv, Ht.
  assert (Hfin : forall later g0,
            invariant g0 -> timer_cleared g0 -> g_promise g0 <> Pending ->
            timeout g0 = false /\
            g_promise (fold_left step later g0) = g_promise g0 /\
            record (fold_left step later g0) = record g0 /\
            timeout (fold_left step later g0) = false /\
            calls (scanning (fold_left step later g0)) = calls (scanning g0)).
  { clear. induction later as [|ev later IH]; intros g0 Hinv Ht Hp.
    - pose proof (settled_timer g0 Hinv Ht Hp). by repeat split.
    - destruct (settled_step g0 ev Hinv Ht Hp) as (H1 & H2 & H3 & H4).
      destruct (IH (step g0 ev)) as (_ & G1 & G2 & G3 & G4).
      + by apply AggregatorFacts.step_invariant.
      + by apply step_timer_cleared.
      + by rewrite H1.
      + pose proof (settled_timer g0 Hinv Ht Hp) as G0.
        simpl. repeat split; congruence. }
  destruct (Hfin later g Hinv Ht Hp) as (H0 & H1 & H2 & H3 & H4).
  repeat split; try assumption.
  simpl. unfold on_timeout. by rewrite H0.
Qed.

End Runs.

Lemma scan_failure_rejects_getRecord_witness :
  let w := Aggregator.run tagged_readings
             (mkWorld (getRecord ["temperature"] JsNull "poweredOn") [])
             [Adapter (ScanStarted None); Adapter (Discover a_station)] in
  let g' := Aggregator.step tagged_readings (agg w)
              (Adapter (StateChange "poweredOff")) in
  g_promise g' = Rejected (AdapterStateError "poweredOff") /\
  g_promise (Aggregator.step tagged_readings
               (getRecord ["temperature"] JsNull "unknown")
               (Adapter PowerTimeout))
  = Rejected (AdapterTimeoutError "unknown").
Proof.
  split.
  - pose proof (scan_failure_rejects_getRecord tagged_readings ["temperature"]
                  JsNull "poweredOn"
                  [Adapter (ScanStarted None); Adapter (Discover a_station)]
                  (mkError "x") "poweredOff") as H.
    cbv zeta in H. destruct H as (_ & _ & H).
    apply H; [reflexivity | discriminate].
  - pose proof (scan_failure_rejects_getRecord tagged_readings ["temperature"]
                  JsNull "unknown" [] (mkError "x") "poweredOff") as H.
    cbv zeta in H. destruct H as (H & _).
    apply H. reflexivity.
Defined.

Lemma settled_getRecord_is_final_witness :
  let g := agg (Aggregator.run tagged_readings
                  (mkWorld (getRecord ["temperature"] JsNull "poweredOn") [])
                  [Adapter (ScanStarted None); Adapter (Discover a_station);
                   Adapter ScanStop]) in
  g_promise (fold_left (Aggregator.step tagged_readings)
               [Adapter (Discover two_readings); Deadline;
                Adapter (StateChange "poweredOff")] g)
  = g_promise g.
Proof.
  intros g.
  pose proof (settled_getRecord_is_final tagged_readings ["temperature"] JsNull
                "poweredOn"
                [Adapter (ScanStarted None); Adapter (Discover a_station);
                 Adapter ScanStop]
                [Adapter (Discover two_readings); Deadline;
                 Adapter (StateChange "poweredOff")]) as H.
  cbv zeta in H. destruct H as (H & _); [vm_compute; discriminate|exact H].
Defined.

Lemma record_keeps_last_reading_witness :
  let g := agg (Aggregator.run tagged_readings
                  (mkWorld (getRecord ["temperature"] JsNull "poweredOn") [])
                  [Adapter (ScanStarted None)]) in
  record (Aggregator.step tagged_readings g (Adapter (Discover two_readings)))
    !! "humidity" = None.
Proof.
  intros g.
  pose proof (record_keeps_last_reading tagged_readings g (Discover two_readings)
                "humidity") as H.
  cbv zeta in H. destruct H as (_ & _ & H).
  rewrite H; [reflexivity|].
  intros Hin. apply list_elem_of_singleton in Hin. discriminate.
Defined.

Lemma record_only_grows_example :
  let g := agg (Aggregator.run tagged_readings
                  (mkWorld (getRecord ["temperature"; "humidity"] JsNull "poweredOn") [])
                  [Adapter (ScanStarted None); Adapter (Discover a_station)]) in
  is_Some (record (Aggregator.step tagged_readings g
                     (Adapter (Discover two_readings))) !! "temperature").
Proof.
  intros g.
  apply (record_only_grows tagged_readings g (Adapter (Discover two_readings))).
  exists (mkReading "temperature" 1). by vm_compute.
Defined.

Lemma record_holds_requested_names_witness :
  name (mkReading "temperature" 1) = "temperature" /\
  "temperature" ∈ ["temperature"; "humidity"].
Proof.
  pose proof (record_holds_requested_names tagged_readings
                ["temperature"; "humidity"] JsNull "poweredOn"
                [Adapter (ScanStarted None); Adapter (Discover a_station)]) as H.
  cbv zeta in H. destruct H as (H & _).
  apply (H "temperature"). by vm_compute.
Defined.

Lemma repeated_name_never_completes_witness :
  let g := agg (Aggregator.run tagged_readings
                  (mkWorld (getRecord ["temperature"; "temperature"] JsNull "poweredOn") [])
                  [Adapter (ScanStarted None)]) in
  timeout (fold_left readingHandler
             [mkReading "temperature" 21; mkReading "temperature" 22] g) = true.
Proof.
  intros g.
  pose proof (repeated_name_never_completes tagged_readings
                ["temperature"; "temperature"] JsNull "poweredOn"
                [Adapter (ScanStarted None)]
                [mkReading "temperature" 21; mkReading "temperature" 22]) as H.
  cbv zeta in H. destruct H as (_ & H & _).
  - intros Hn. apply NoDup_cons in Hn as [Hn _]. apply Hn. left.
  - exact H.
Defined.

End AggregatorExtras.

(** ** The handshake, further *)
Module StationExtras.
Import Station.

Ltac crush_step :=
  StationFacts.unfold_step; simpl in *;
  repeat (StationFacts.case_step; simpl in *).



Lemma station_run_snoc s evs ev : run s (evs ++ [ev]) = step (run s evs) ev.
Proof. unfold run. by rewrite fold_left_app. Qed.




Ltac coherence :=
  simpl;
  first [ by repeat split
        | by (left; repeat split)
        | by (right; split; [|eexists; split]; reflexivity)
        | by (split; [reflexivity | eexists; reflexivity]) ].

Lemma connect_coherent pc : coherent (connect pc).
Proof. destruct pc; unfold coherent; coherence. Qed.

Lemma step_coherent s ev : coherent s -> coherent (step s ev).
Proof.
  unfold coherent.
  destruct s as [ph l cs fi stg con lg]; simpl. intros H.
  destruct ph;
    lazymatch type of H with
    | _ \/ _ => destruct H as [(-> & -> & ->)|(-> & e0 & -> & ->)]
    | _ /\ (exists _, _) => destruct H as (-> & e0 & ->)
    | _ => destruct H as (-> & ->)
    end;
    destruct ev as [[e|]|[e|]|[e|]| |i [e|]|nc d n]; crush_step; coherence.
Qed.

Lemma run_coherent pc evs : coherent (run (connect pc) evs).
Proof.
  induction evs as [|ev evs IH] using rev_ind; [apply connect_coherent|].
  rewrite station_run_snoc. by apply step_coherent.
Qed.




Lemma aborted_step s ev :
  s_phase s = Aborted ->
  s_phase (step s ev) = Aborted /\ requests (step s ev) = requests s.
Proof.
  unfold requests. destruct s as [ph l cs fi stg con lg]; simpl. intros ->.
  destruct ev as [[e|]|[e|]|[e|]| |i [e|]|nc d n]; crush_step;
    rewrite ?List.filter_app; simpl; rewrite ?app_nil_r; done.
Qed.

Lemma aborted_run later : forall s,
  s_phase s = Aborted ->
  s_phase (run s later) = Aborted /\ requests (run s later) = requests s.
Proof.
  induction later as [|ev later IH]; intros s Hs; [done|].
  destruct (aborted_step s ev Hs) as [H1 H2].
  destruct (IH _ H1) as [G1 G2]. simpl. split; congruence.
Qed.

(** X17: an error reported by the connect request, by the discovery or
    by either subscription rejects a pending [connect] with that error
    and ends the handshake: the listener is removed and no request is
    made afterwards, whatever events follow. *)
Theorem handshake_error_rejects_connect (peripheral_connected : bool)
    (evs later : list event) (e : Error) (ev : event) :
  let s := run (connect peripheral_connected) evs in
  connected s = Pending ->
  (s_phase s = Connecting /\ ev = ConnectCb (Some e)) \/
  (s_phase s = Discovering /\ ev = DiscoverCb (Some e)) \/
  ((s_phase s = SubscribingSettings \/ s_phase s = SubscribingData) /\
   ev = SubscribeCb (Some e)) ->
  let s' := step s ev in
  connected s' = Rejected e /\
  s_phase s' = Aborted /\
  disconnect_listener s' = false /\
  requests s' = requests s /\
  connected (run s' later) = Rejected e /\
  requests (run s' later) = requests s.
Proof.
  intros s Hp Hev s'.
  pose proof (run_coherent peripheral_connected evs) as Hc.
  fold s in Hc. unfold coherent in Hc.
  assert (H : connected s' = Rejected e /\ s_phase s' = Aborted /\
              disconnect_listener s' = false /\ requests s' = requests s).
  { unfold s', requests. clearbody s. clear s'.
    destruct s as [ph l cs fi stg con lg]; simpl in *. subst con.
    destruct Hev as [[-> ->]|[[-> ->]|[[-> | ->] ->]]];
      try (destruct Hc as [(-> & -> & _)|(_ & e0 & _ & [=])]);
      try (destruct Hc as (-> & _)); by crush_step. }
  destruct H as (H1 & H2 & H3 & H4).
  destruct (aborted_run later s' H2) as [_ G].
  repeat split; try assumption; [|congruence].
  rewrite StationFacts.run_connected; [exact H1|by rewrite H1].
Qed.


Lemma initialize_settle_commands s : commands (initialize_settle s) = commands s.
Proof.
  destruct s as [ph l cs fi stg con lg]; destruct ph; crush_step; reflexivity.
Qed.

Lemma characteristic_eqb_eq a b : characteristic_eqb a b = true <-> a = b.
Proof. destruct a, b; simpl; split; congruence. Qed.

(** X19: a 'data' event of a characteristic is handed to every command
    listening on it: each pending command that awaits the code of the
    notification is resolved with the payload and stops listening, so
    that one notification answers all of them; the commands listening on
    the other characteristic, or awaiting another code, stay as they
    are. *)
Theorem notification_answers_every_listener (s : station) (nc : characteristic)
    (d : list byte) (n : bool) (i : nat) (c : command) :
  commands s !! i = Some c ->
  c_listening c = true -> c_promise c = Pending ->
  let s' := step s (Data nc d n) in
  length (commands s') = length (commands s) /\
  (c_notify c = nc -> matches (c_responseCommand c) (d, n) = true ->
   commands s' !! i = Some (with_c_promise (Fulfilled d) (removeListener c))) /\
  (c_notify c <> nc \/ matches (c_responseCommand c) (d, n) = false ->
   commands s' !! i = Some c).
Proof.
  intros Hi Hl Hp s'.
  assert (Hc : commands s' = map (fun c => on_data c nc d n) (commands s)).
  { unfold s'. simpl. by rewrite initialize_settle_commands. }
  rewrite Hc. split; [by rewrite length_map|].
  change (map (fun c => on_data c nc d n) (commands s))
    with ((fun c => on_data c nc d n) <$> commands s).
  rewrite list_lookup_fmap, Hi. simpl.
  split.
  - intros <- Hm. by rewrite (StationFacts.on_data_pending c d n Hl Hp), Hm.
  - intros [Hne|Hm].
    + unfold on_data. destruct (characteristic_eqb (c_notify c) nc) eqn:E.
      * by apply characteristic_eqb_eq in E.
      * by rewrite andb_false_r.
    + destruct (characteristic_eqb (c_notify c) nc) eqn:E.
      * apply characteristic_eqb_eq in E as <-.
        by rewrite (StationFacts.on_data_pending c d n Hl Hp), Hm.
      * unfold on_data. by rewrite E, andb_false_r.
Qed.

(** A pending command after an event. *)
Lemma pending_command_step s ev i c :
  commands s !! i = Some c ->
  c_listening c = true -> c_promise c = Pending ->
  commands (step s ev) !! i
  = Some (if settles c i ev then settled_by c ev else c).
Proof.
  intros Hi Hl Hp.
  assert (Hkeep : forall extra, (commands s ++ extra)%list !! i = Some c).
  { intros extra. by apply lookup_app_l_Some. }
  destruct ev as [error|error|error| |j error|nc d n].
  - destruct s as [ph l cs fi stg con lg]; simpl in *.
    by destruct ph, error.
  - destruct s as [ph l cs fi stg con lg]; simpl in *.
    destruct ph, error; crush_step; done.
  - destruct s as [ph l cs fi stg con lg]; simpl in *.
    destruct ph, error; crush_step; try done;
      rewrite <- !app_assoc; apply (Hkeep [_; _; _]).
  - destruct s as [ph l cs fi stg con lg]; simpl in *.
    crush_step; done.
  - cbn [step]. destruct (commands s !! j) as [cj|] eqn:Hj.
    + rewrite initialize_settle_commands. simpl.
      destruct (Nat.eqb_spec j i) as [->|Hne].
      * rewrite Hi in Hj. injection Hj as <-.
        rewrite list_lookup_insert_eq by (by eapply lookup_lt_Some).
        destruct error as [e|]; simpl; [by rewrite Hp|reflexivity].
      * rewrite list_lookup_insert_ne by done. rewrite Hi.
        by destruct error.
    + unfold settles.
      destruct (Nat.eqb_spec j i) as [->|Hne]; [congruence|].
      rewrite Hi. by destruct error.
  - simpl. rewrite initialize_settle_commands. simpl.
    change (map (fun c => on_data c nc d n) (commands s))
      with ((fun c => on_data c nc d n) <$> commands s).
    rewrite list_lookup_fmap, Hi. simpl. f_equal.
    destruct (characteristic_eqb (c_notify c) nc) eqn:E.
    + apply characteristic_eqb_eq in E as <-. simpl.
      apply (StationFacts.on_data_pending c d n Hl Hp).
    + unfold on_data. by rewrite E, andb_false_r.
Qed.

(** A settled command that no longer listens, after an event. *)
Lemma settled_command_step s ev i c :
  commands s !! i = Some c ->
  c_listening c = false -> c_promise c <> Pending ->
  commands (step s ev) !! i = Some c.
Proof.
  intros Hi Hl Hp.
  assert (Hkeep : forall extra, (commands s ++ extra)%list !! i = Some c).
  { intros extra. by apply lookup_app_l_Some. }
  destruct ev as [error|error|error| |j error|nc d n].
  - destruct s as [ph l cs fi stg con lg]; simpl in *.
    by destruct ph, error.
  - destruct s as [ph l cs fi stg con lg]; simpl in *.
    destruct ph, error; crush_step; done.
  - destruct s as [ph l cs fi stg con lg]; simpl in *.
    destruct ph, error; crush_step; try done;
      rewrite <- !app_assoc; apply (Hkeep [_; _; _]).
  - destruct s as [ph l cs fi stg con lg]; simpl in *.
    crush_step; done.
  - cbn [step]. destruct (commands s !! j) as [cj|] eqn:Hj; [|exact Hi].
    rewrite initialize_settle_commands. simpl.
    destruct (decide (i = j)) as [->|Hne].
    + rewrite Hi in Hj. injection Hj as <-.
      rewrite list_lookup_insert_eq by (by eapply lookup_lt_Some).
      f_equal. destruct error as [e|]; [|reflexivity].
      destruct c as [wc nc d k li pr]; simpl in *. subst li.
      by destruct pr.
    + by rewrite list_lookup_insert_ne.
  - simpl. rewrite initialize_settle_commands. simpl.
    change (map (fun c => on_data c nc d n) (commands s))
      with ((fun c => on_data c nc d n) <$> commands s).
    rewrite list_lookup_fmap, Hi. simpl. f_equal.
    unfold on_data. by rewrite Hl.
Qed.

Lemma settled_command_run post : forall s i c,
  commands s !! i = Some c ->
  c_listening c = false -> c_promise c <> Pending ->
  commands (run s post) !! i = Some c.
Proof.
  induction post as [|ev post IH]; intros s i c Hi Hl Hp; [exact Hi|].
  simpl. apply IH; [|exact Hl|exact Hp]. by apply settled_command_step.
Qed.

Lemma pending_command_run pre : forall s i c,
  commands s !! i = Some c ->
  c_listening c = true -> c_promise c = Pending ->
  Forall (fun ev => settles c i ev = false) pre ->
  commands (run s pre) !! i = Some c.
Proof.
  induction pre as [|ev pre IH]; intros s i c Hi Hl Hp Hall; [exact Hi|].
  apply Forall_cons in Hall as [Hev Hall].
  simpl. apply IH; try assumption.
  rewrite (pending_command_step s ev i c Hi Hl Hp). by rewrite Hev.
Qed.

(** X20: two events only settle a pending command of [_write]: a 'data'
    event of its notify characteristic that is flagged as a notification
    and starts with the expected code, and an error in the callback of
    its own write.  Through any other events (a disconnect, the
    callbacks of the handshake, the callbacks of other writes, a
    successful callback of its own write, other notifications) it stays
    pending and listening; the first settling event decides, resolving
    it with the payload or rejecting it with the write error, and
    removes the listener; whatever follows leaves it so. *)
Theorem first_settling_event_decides (s : station) (i : nat) (c : command)
    (pre post : list event) (ev : event) :
  commands s !! i = Some c ->
  c_listening c = true -> c_promise c = Pending ->
  Forall (fun e => settles c i e = false) pre ->
  commands (run s pre) !! i = Some c /\
  (settles c i ev = true ->
   commands (run s (pre ++ ev :: post)) !! i = Some (settled_by c ev) /\
   c_listening (settled_by c ev) = false /\
   c_promise (settled_by c ev)
   = match ev with
     | Data _ d _ => Fulfilled d
     | WriteCb _ (Some e) => Rejected e
     | _ => Pending
     end).
Proof.
  intros Hi Hl Hp Hall.
  pose proof (pending_command_run pre s i c Hi Hl Hp Hall) as Hpre.
  split; [exact Hpre|]. intros Hev.
  assert (Hs : c_listening (settled_by c ev) = false /\
               c_promise (settled_by c ev)
               = match ev with
                 | Data _ d _ => Fulfilled d
                 | WriteCb _ (Some e) => Rejected e
                 | _ => Pending
                 end).
  { destruct ev as [| | | |j [e|]|nc d n]; try discriminate; by split. }
  destruct Hs as [Hl' Hp'].
  split; [|by split].
  replace (run s (pre ++ ev :: post)) with (run (step (run s pre) ev) post)
    by (unfold run; by rewrite fold_left_app).
  apply settled_command_run; [|exact Hl'|].
  - rewrite (pending_command_step _ ev i c Hpre Hl Hp). by rewrite Hev.
  - rewrite Hp'. destruct ev as [| | | |j [e|]|nc d n]; discriminate.
Qed.



Lemma handshake_error_rejects_connect_witness :
  let s' := step (run (connect true) [DiscoverCb None])
              (SubscribeCb (Some (mkError "refused"))) in
  connected (run s' [SubscribeCb None; Data SettingsNotify [x80]%byte true])
    = Rejected (mkError "refused") /\
  requests (run s' [SubscribeCb None; Data SettingsNotify [x80]%byte true])
    = [DiscoverCharacteristics; Subscribe SettingsNotify].
Proof.
  pose proof (handshake_error_rejects_connect true [DiscoverCb None]
                [SubscribeCb None; Data SettingsNotify [x80]%byte true]
                (mkError "refused") (SubscribeCb (Some (mkError "refused")))
                eq_refl) as H.
  cbv zeta in H. destruct H as (_ & _ & _ & _ & Hc & Hr).
  - right. right. split; [by left|reflexivity].
  - split; [exact Hc | exact Hr].
Defined.


Lemma notification_answers_every_listener_witness :
  let s := run (connect true) [DiscoverCb None; SubscribeCb None; SubscribeCb None] in
  c_promise <$> commands (step s (Data SettingsNotify [x80; x01]%byte true)) !! 2%nat
  = Some (Fulfilled [x80; x01]%byte).
Proof.
  intros s.
  pose proof (notification_answers_every_listener s SettingsNotify
                [x80; x01]%byte true 2
                (new_command SettingsWrite SettingsNotify init3 0x80)
                eq_refl eq_refl eq_refl) as H.
  cbv zeta in H. destruct H as (_ & H & _).
  rewrite H; reflexivity.
Defined.

Lemma first_settling_event_decides_witness :
  let s := run (connect true) [DiscoverCb None; SubscribeCb None; SubscribeCb None] in
  let failed := mkError "write failed" in
  c_promise <$>
    commands (run s ([Disconnect; WriteCb 0 (Some failed); WriteCb 1 None;
                      Data DataNotify [x80]%byte true;
                      Data SettingsNotify [x81]%byte true;
                      Data SettingsNotify [x80]%byte false]
                     ++ WriteCb 1 (Some failed)
                     :: [Data SettingsNotify [x80]%byte true])) !! 1%nat
  = Some (Rejected failed).
Proof.
  intros s failed.
  pose proof (first_settling_event_decides s 1
                (new_command SettingsWrite SettingsNotify init2 0x80)
                [Disconnect; WriteCb 0 (Some failed); WriteCb 1 None;
                 Data DataNotify [x80]%byte true;
                 Data SettingsNotify [x81]%byte true;
                 Data SettingsNotify [x80]%byte false]
                [Data SettingsNotify [x80]%byte true]
                (WriteCb 1 (Some failed)) eq_refl eq_refl eq_refl) as H.
  destruct H as [_ H]; [repeat constructor|].
  destruct (H eq_refl) as [H1 _]. by rewrite H1.
Defined.

End StationExtras.
